(** * Rubik's cube solver: the IDA* search driver and the counting utilities

    A shallow embedding of [Solver/IDAstarSolver.h] and
    [PatternDatabases/math.cpp], with the properties their specification
    states about them. *)

From stdpp Require Import gmap list.
From Stdlib Require Import ZArith Lia.

Local Open Scope Z_scope.

(** ** PatternDatabases/math.cpp *)

Module Combinatorics.

(** [uint32_t] arithmetic: every result is reduced modulo 2^32. *)
Definition wrap32 (z : Z) : Z := z mod 2 ^ 32.

Definition uint32 (z : Z) : Prop := 0 <= z < 2 ^ 32.

(** [uint32_t factorial(uint32_t n) { return n<=1 ? 1 : n * factorial(n-1); }]
    The recursion descends on [n]; the first argument counts the calls that
    are still allowed and is [n] itself at the entry point. *)
Fixpoint factorial_rec (calls : nat) (n : Z) : Z :=
  if n <=? 1 then 1
  else match calls with
       | O => 1
       | S calls' => wrap32 (n * factorial_rec calls' (wrap32 (n - 1)))
       end.

Definition factorial (n : Z) : Z := factorial_rec (Z.to_nat n) n.

(** Unsigned division by zero is undefined behaviour: [None]. *)
Definition udiv (a b : Z) : option Z :=
  if b =? 0 then None else Some (a / b).

(** [uint32_t pick(uint32_t n, uint32_t k) { return factorial(n) / factorial(n-k); }] *)
Definition pick (n k : Z) : option Z :=
  udiv (factorial n) (factorial (wrap32 (n - k))).

(** [uint32_t choose(uint32_t n, uint32_t k)
      { return (n<k) ? 0 : factorial(n) / (factorial(n-k) * factorial(k)); }] *)
Definition choose (n k : Z) : option Z :=
  if n <? k then Some 0
  else udiv (factorial n)
            (wrap32 (factorial (wrap32 (n - k)) * factorial k)).

(** The mathematical factorial, as the reference the utilities are compared
    with. *)
Fixpoint fact (n : nat) : Z :=
  match n with
  | O => 1
  | S m => Z.of_nat n * fact m
  end.

End Combinatorics.

(** ** Solver/IDAstarSolver.h *)

Module IDAstarSolver.

(** Modelled from the spec: [RubiksCube::MOVE], declared in
    [Model/RubiksCube.h], which is not among these sources. It is the
    alphabet of the eighteen moves; the solver builds its values from, and
    stores them as, an [int]: [RubiksCube::MOVE(i)] for [i] in 0..17. *)
Definition MOVE : Type := Z.

(** The eighteen indices of [for (int i=0;i<18;i++)]. *)
Definition move_indices : list Z := seqZ 0 18.

Section Solver.

(** The template arguments [T] (the cube) and [H] (its hash): the keys of
    the two [unordered_map]s, compared with the equality of [T]. *)
Context {T : Type} `{Countable T}.

(** The members of [T] the solver calls: [cube.move(m)], [cube.invert(m)]
    (both update the cube in place) and [cube.isSolved()]. The cube classes
    are not among these sources; the solver is verified for any such
    members. *)
Variable move : T -> MOVE -> T.
Variable invert : T -> MOVE -> T.
Variable isSolved : T -> bool.

(** [struct Node { T cube; int depth; int estimate; }] *)
Record Node : Type := mkNode { cube : T; depth : Z; estimate : Z }.

(** [depth + estimate], the key of the frontier order. In every call that
    [solve] makes the bound is at most 100 and no depth exceeds the bound
    by more than one, so [int] arithmetic is exact here. *)
Definition cost (n : Node) : Z := depth n + estimate n.

(** [struct compareCube]: [operator()(p1, p2)]. *)
Definition compareCube (p1 p2 : Node * Z) : bool :=
  let n1 := p1.1 in
  let n2 := p2.1 in
  if bool_decide (depth n1 + estimate n1 = depth n2 + estimate n2)
  then bool_decide (estimate n1 > estimate n2)
  else bool_decide (depth n1 + estimate n1 > depth n2 + estimate n2).

(** [priority_queue<pair<Node,int>, vector<pair<Node,int>>, compareCube>]:
    the entries in the order they were pushed. [top] is an entry that the
    comparator puts below no other one; among several such entries the
    standard library leaves the choice open, and the model takes the one
    pushed first. [pq_extract] is [top] followed by [pop]. *)
Definition pq_push (e : Node * Z) (q : list (Node * Z)) : list (Node * Z) :=
  q ++ [e].

Fixpoint pq_extract (q : list (Node * Z)) : option ((Node * Z) * list (Node * Z)) :=
  match q with
  | [] => None
  | x :: q' =>
      match pq_extract q' with
      | None => Some (x, [])
      | Some (y, r) => if compareCube x y then Some (y, x :: r) else Some (x, q')
      end
  end.

(** [m[k]] of an [unordered_map] used as a value: a key that is absent is
    first inserted with the value-initialised element. *)
Definition map_index {V : Type} (dflt : V) (m : gmap T V) (k : T) : V * gmap T V :=
  match m !! k with
  | Some v => (v, m)
  | None => (dflt, <[k := dflt]> m)
  end.

(** Modelled from the spec: [CornerPatternDatabase], declared in a header
    that is not among these sources. It is the heuristic provider, taken as
    the table it stands for: from a cube to a number of moves. *)
Definition CornerPatternDatabase : Type := T -> Z.

(** The data members of the class. *)
Record Solver : Type := mkSolver {
  cornerDB : CornerPatternDatabase;
  moves : list MOVE;
  move_done : gmap T MOVE;
  visited : gmap T bool;
  rubiksCube : T
}.

(** [IDAstarSolver(T _rubiksCube)]: every other member is
    default-constructed. *)
Definition construct (db : CornerPatternDatabase) (_rubiksCube : T) : Solver :=
  mkSolver db [] ∅ ∅ _rubiksCube.

(** [void resetStructure() { moves.clear(); visited.clear();
    move_done.clear(); }] *)
Definition resetStructure (s : Solver) : Solver :=
  mkSolver (cornerDB s) [] ∅ ∅ (rubiksCube s).

Definition set_visited (s : Solver) (v : gmap T bool) : Solver :=
  mkSolver (cornerDB s) (moves s) (move_done s) v (rubiksCube s).

Definition set_move_done (s : Solver) (d : gmap T MOVE) : Solver :=
  mkSolver (cornerDB s) (moves s) d (visited s) (rubiksCube s).

Definition set_moves (s : Solver) (ms : list MOVE) : Solver :=
  mkSolver (cornerDB s) ms (move_done s) (visited s) (rubiksCube s).

Definition set_rubiksCube (s : Solver) (c : T) : Solver :=
  mkSolver (cornerDB s) (moves s) (move_done s) (visited s) c.

(** What one call of [IDAstar] does, as a log (latest event first). The log
    is only written, never read: it records the run without steering it. *)
Inductive event : Type :=
| Seed (n : Node)            (* the start node is put on the queue *)
| Skip (n : Node)            (* popped, already visited: [continue] *)
| Visit (n : Node) (m : Z)   (* popped, marked visited, [move_done] set *)
| Solved (n : Node)          (* [isSolved()] held: the call returns *)
| Prune (n : Node)           (* a successor above the bound *)
| Push (n : Node) (i : Z).   (* a successor put on the queue *)

(** The local variables of [IDAstar] together with the object. *)
Record Search : Type := mkSearch {
  pq : list (Node * Z);
  next_bound : Z;
  self : Solver;
  trace : list event
}.

(** The body of [for (int i=0;i<18;i++)], on the local [node] and the rest
    of the state. *)
Definition probe (bound : Z) (acc : Node * Search) (i : Z) : Node * Search :=
  let '(node, st) := acc in
  let curr_move : MOVE := i in
  let node := mkNode (move (cube node) curr_move) (depth node) (estimate node) in
  let '(seen, vis) := map_index false (visited (self st)) (cube node) in
  let st := mkSearch (pq st) (next_bound st) (set_visited (self st) vis) (trace st) in
  let '(node, st) :=
    if negb seen then
      let node := mkNode (cube node) (depth node) 0 in
      if bool_decide (depth node + estimate node > bound) then
        (node, mkSearch (pq st)
                        (Z.min (next_bound st) (depth node + estimate node))
                        (self st) (Prune node :: trace st))
      else
        (node, mkSearch (pq_push (node, i) (pq st)) (next_bound st)
                        (self st) (Push node i :: trace st))
    else (node, st) in
  (mkNode (invert (cube node) curr_move) (depth node) (estimate node), st).

(** One pass through [while (!pq.empty()) { ... }]: either the function
    returns (from inside the loop on a solved cube, or after the loop once
    the queue is empty), or the loop goes round again. *)
Inductive pass : Type :=
| Return (r : T * Z) (st : Search)
| Continue (st : Search).

Definition loop_body (bound : Z) (st : Search) : pass :=
  match pq_extract (pq st) with
  | None => Return (rubiksCube (self st), next_bound st) st
  | Some (p, q) =>
      let node := p.1 in
      let '(seen, vis) := map_index false (visited (self st)) (cube node) in
      if seen then
        Continue (mkSearch q (next_bound st) (set_visited (self st) vis)
                           (Skip node :: trace st))
      else
        let s := set_visited (self st) (<[cube node := true]> vis) in
        let s := set_move_done s (<[cube node := p.2]> (move_done s)) in
        if isSolved (cube node) then
          Return (cube node, bound)
                 (mkSearch q (next_bound st) s
                           (Solved node :: Visit node p.2 :: trace st))
        else
          let node' := mkNode (cube node) (depth node + 1) (estimate node) in
          let st := mkSearch q (next_bound st) s (Visit node p.2 :: trace st) in
          Continue (foldl (probe bound) (node', st) move_indices).2
  end.

(** The loop. Each unit of [fuel] pays for one pass; [None] means the fuel
    ran out before the function returned. *)
Fixpoint IDAstar_loop (fuel : nat) (bound : Z) (st : Search) : option ((T * Z) * Search) :=
  match fuel with
  | O => None
  | S fuel' =>
      match loop_body bound st with
      | Return r st' => Some (r, st')
      | Continue st' => IDAstar_loop fuel' bound st'
      end
  end.

(** [pair<T,int> IDAstar(int bound)]. The source writes [pq.push_back] for
    the first entry, which [priority_queue] does not have; it is read as
    [pq.push]. *)
Definition IDAstar_init (s : Solver) : Search :=
  let start := mkNode (rubiksCube s) 0 0 in
  mkSearch (pq_push (start, 0) []) 100 s [Seed start].

Definition IDAstar (fuel : nat) (bound : Z) (s : Solver) : option ((T * Z) * Solver * list event) :=
  match IDAstar_loop fuel bound (IDAstar_init s) with
  | None => None
  | Some (r, st) => Some (r, self st, trace st)
  end.

(** A call of [IDAstar] as [solve] makes it: the bound passed and the
    object at entry. [solve] below keeps the list of its calls next to its
    result; like the log of a call, the list is only written. *)
Record Call : Type := mkCall {
  call_bound : Z;
  call_entry : Solver
}.

(** [while (p.second != bound) { resetStructure(); bound = p.second;
    bound = IDAstar(bound); }]. The last statement assigns a
    [pair<T,int>] to an [int]; it is read as keeping the [int] component,
    the only part of the pair an [int] can hold. [p] itself is never
    assigned in the loop. [callfuel] is the fuel of each inner call; the
    result is [None] when some fuel ran out. *)
Fixpoint solve_loop (fuel callfuel : nat) (p : T * Z) (bound : Z)
    (s : Solver) (calls : list Call) : option (Z * Solver) * list Call :=
  match fuel with
  | O => (None, calls)
  | S fuel' =>
      if bool_decide (p.2 ≠ bound) then
        let s := resetStructure s in
        let bound := p.2 in
        let calls := calls ++ [mkCall bound s] in
        match IDAstar callfuel bound s with
        | None => (None, calls)
        | Some (r, s', _) => solve_loop fuel' callfuel p r.2 s' calls
        end
      else (Some (bound, s), calls)
  end.

(** [while (curr_cube != rubiksCube) { curr_move = move_done[curr_cube];
    moves.push_back(curr_move); curr_cube.invert(curr_move); }] *)
Fixpoint path_loop (fuel : nat) (curr_cube : T) (s : Solver) : option Solver :=
  match fuel with
  | O => None
  | S fuel' =>
      if bool_decide (curr_cube ≠ rubiksCube s) then
        let '(curr_move, md) := map_index 0 (move_done s) curr_cube in
        let s := set_move_done s md in
        let s := set_moves s (moves s ++ [curr_move]) in
        path_loop fuel' (invert curr_cube curr_move) s
      else Some s
  end.

(** [vector<RubiksCube::MOVE> solve()]: the returned vector with the object
    afterwards ([None] when the fuel ran out), and the calls of [IDAstar]
    in the order they were made. *)
Definition solve (fuel : nat) (s : Solver) : option (list MOVE * Solver) * list Call :=
  let bound := 1 in
  let calls := [mkCall bound s] in
  match IDAstar fuel bound s with
  | None => (None, calls)
  | Some (p, s1, _) =>
      match solve_loop fuel fuel p bound s1 calls with
      | (None, calls) => (None, calls)
      | (Some (_, s2), calls) =>
          let solved_cube := p.1 in
          match path_loop fuel solved_cube s2 with
          | None => (None, calls)
          | Some s3 =>
              let s4 := set_rubiksCube s3 solved_cube in
              let s5 := set_moves s4 (reverse (moves s4)) in
              (Some (moves s5, s5), calls)
          end
      end
  end.

(** Readings of the log. *)
Definition pruned_costs (tr : list event) : list Z :=
  omap (fun e => match e with Prune n => Some (cost n) | _ => None end) tr.

Definition visited_cubes (tr : list event) : list T :=
  omap (fun e => match e with Visit n _ => Some (cube n) | _ => None end) tr.

Definition event_node (e : event) : Node :=
  match e with
  | Seed n | Skip n | Visit n _ | Solved n | Prune n | Push n _ => n
  end.

Definition reached_solved (tr : list event) : Prop :=
  exists n, Solved n ∈ tr.

(** Applying a sequence of moves, first to last. *)
Definition apply_moves (c : T) (ms : list MOVE) : T := foldl move c ms.

End Solver.

End IDAstarSolver.

(** ** A small puzzle for the template argument

    A dial with [n] positions. The eighteen moves turn it by 2, 4, ..., 18
    positions one way (moves 0..8) or the other (moves 9..17); position 0 is
    the solved one. Every move is undone by [invert], and an odd position
    can never be solved when [n] is even. *)

Module Dial.

Definition turn (i : Z) : Z :=
  if bool_decide (i < 9) then 2 * (i + 1) else - (2 * (i - 8)).

Definition move (n : Z) (c : Z) (i : Z) : Z := (c + turn i) mod n.

Definition invert (n : Z) (c : Z) (i : Z) : Z := (c - turn i) mod n.

Definition isSolved (c : Z) : bool := bool_decide (c = 0).

(** A table that is never zero away from the solved position. *)
Definition table (c : Z) : Z := if isSolved c then 0 else 1.

Definition solver (c : Z) : IDAstarSolver.Solver (T := Z) :=
  IDAstarSolver.construct table c.

(** The solver at this puzzle. *)
Abbreviation IDAstar n := (IDAstarSolver.IDAstar (move n) (invert n) isSolved).

Abbreviation solve n := (IDAstarSolver.solve (move n) (invert n) isSolved).

End Dial.

(** A second, thinner puzzle: a rack without end. Moves 0..8 shift it one
    notch up, moves 9..17 one notch down; notch 0 is the solved one. *)

Module Rack.

Definition shift (i : Z) : Z := if bool_decide (i < 9) then 1 else -1.

Definition move (c : Z) (i : Z) : Z := c + shift i.

Definition invert (c : Z) (i : Z) : Z := c - shift i.

Definition isSolved (c : Z) : bool := bool_decide (c = 0).

Definition solver (c : Z) : IDAstarSolver.Solver (T := Z) :=
  IDAstarSolver.construct (fun _ => 0) c.

Abbreviation IDAstar := (IDAstarSolver.IDAstar move invert isSolved).

End Rack.

(** ** Vocabulary of the properties *)

Module SearchSpec.
Import IDAstarSolver.

Section Spec.
Context {T : Type} `{Countable T}.
Variable move : T -> MOVE -> T.

(** [c] is what [d] moves of the alphabet make of [root]. *)
Definition reached_in (root : T) (d : Z) (c : T) : Prop :=
  exists ms : list MOVE,
    Z.of_nat (length ms) = d /\
    Forall (fun m => m ∈ move_indices) ms /\
    apply_moves move root ms = c.

(** What holds of the state of [IDAstar] each time the loop condition is
    tested, in a call entered with the object [s0] and the bound [bound]. *)
Record search_inv (s0 : Solver (T := T)) (bound : Z) (st : Search (T := T)) : Prop := mk_search_inv {
  inv_queue : forall e, e ∈ pq st ->
    estimate e.1 = 0 /\ 0 <= depth e.1 <= Z.max 0 bound;
  inv_events : forall ev, ev ∈ trace st -> estimate (event_node ev) = 0;
  inv_next_bound : next_bound st = foldr Z.min 100 (pruned_costs (trace st));
  inv_pruned : forall n, Prune n ∈ trace st -> bound < cost n;
  inv_unsolved : forall n, Solved n ∉ trace st;
  inv_once : NoDup (visited_cubes (trace st));
  inv_marked : forall c, c ∈ visited_cubes (trace st) ->
    visited (self st) !! c = Some true /\ visited s0 !! c <> Some true;
  inv_stale : forall c, visited s0 !! c = Some true ->
    visited (self st) !! c = Some true;
  inv_root : rubiksCube (self st) = rubiksCube s0;
  inv_moves : moves (self st) = moves s0;
  inv_db : cornerDB (self st) = cornerDB s0
}.

(** The object and the log once a popped entry has passed the visited
    check. *)
Definition visit_state (st : Search (T := T)) (p : Node (T := T) * Z) (q : list (Node (T := T) * Z)) : Search :=
  mkSearch q (next_bound st)
    (set_move_done
       (set_visited (self st)
          (<[cube p.1 := true]> (map_index false (visited (self st)) (cube p.1)).2))
       (<[cube p.1 := p.2]> (move_done (self st))))
    (Visit p.1 p.2 :: trace st).

(** Every queued node, and every node the log mentions, lies where its
    depth says. *)
Definition placed (root : T) (n : Node (T := T)) : Prop :=
  reached_in root (depth n) (cube n).

Record reach_inv (root : T) (st : Search (T := T)) : Prop := mk_reach_inv {
  reach_queue : forall e, e ∈ pq st -> placed root e.1;
  reach_events : forall ev, ev ∈ trace st -> placed root (event_node ev)
}.

End Spec.

(** The size of a full tree of branching 18 and height [k]: a bound on the
    passes that a queued node [k] levels below the bound can still cause. *)
Fixpoint subtree (k : nat) : nat :=
  match k with
  | O => 1
  | S k' => 1 + 18 * subtree k'
  end.

Definition weight {T : Type} (bound : Z) (e : @Node T * Z) : nat :=
  subtree (Z.to_nat (bound - depth e.1)).

Definition queue_weight {T : Type} (bound : Z) (q : list (@Node T * Z)) : nat :=
  sum_list_with (weight bound) q.

End SearchSpec.
(** ** Vocabulary of the search order and of the recorded moves *)

Module SearchOrder.
Import IDAstarSolver SearchSpec.

Section Order.
Context {T : Type} `{Countable T}.
Variable move : T -> MOVE -> T.
Variable invert : T -> MOVE -> T.

(** No cube is marked visited: the object as the constructor or
    [resetStructure] leaves it. *)
Definition clean (s : Solver (T := T)) : Prop :=
  forall c, visited s !! c <> Some true.

(** [c] passed the visited check at a depth of at most [j]. *)
Definition visited_at (tr : list (event (T := T))) (j : Z) (c : T) : Prop :=
  exists n m, Visit n m ∈ tr /\ cube n = c /\ depth n <= j.

(** [c] waits in the queue at a depth of at most [j]. *)
Definition queued_at (q : list (Node (T := T) * Z)) (j : Z) (c : T) : Prop :=
  exists e, e ∈ q /\ cube e.1 = c /\ depth e.1 <= j.

Definition covered (st : Search (T := T)) (j : Z) (c : T) : Prop :=
  visited_at (trace st) j c \/ queued_at (pq st) j c.

(** What the [for] loop has done with move [i] at the visited node [n]:
    within the bound the successor was found visited or was queued, beyond
    the bound it was found visited or was pruned. *)
Definition probed (bound : Z) (st : Search (T := T)) (n : Node (T := T)) (i : Z) : Prop :=
  (depth n + 1 <= bound -> covered st (depth n + 1) (move (cube n) i)) /\
  (bound < depth n + 1 ->
   move (cube n) i ∈ visited_cubes (trace st) \/
   Prune (mkNode (move (cube n) i) (depth n + 1) 0) ∈ trace st).

(** The node [n], reached by move [m], hangs on the node it was generated
    from: the root has no parent, any other node is one [move m] after a
    visited node one level up, and [invert m] leads back to it. *)
Definition parent_link (root : T) (tr : list (event (T := T)))
    (n : Node (T := T)) (m : Z) : Prop :=
  (depth n = 0 /\ cube n = root) \/
  (0 < depth n /\ m ∈ move_indices /\
   exists n' m', Visit n' m' ∈ tr /\ depth n' = depth n - 1 /\
                 cube n = move (cube n') m /\ invert (cube n) m = cube n').

(** What holds of the search each time the loop condition is tested, and
    inside the [for] loop for the moves [ok] says are done, when the call
    was entered on a clean object. *)
Record order_inv (root : T) (bound : Z) (ok : Node (T := T) -> Z -> Prop)
    (st : Search (T := T)) : Prop := mk_order_inv {
  ord_marks : forall c, visited (self st) !! c = Some true ->
    c ∈ visited_cubes (trace st);
  ord_depth : forall n m, Visit n m ∈ trace st -> 0 <= depth n <= Z.max 0 bound;
  ord_before : forall n m e, Visit n m ∈ trace st -> e ∈ pq st ->
    depth n <= depth e.1;
  ord_probed : forall n m i, Visit n m ∈ trace st -> i ∈ move_indices ->
    ok n i -> probed bound st n i;
  ord_root : covered st 0 root;
  ord_root_once : forall n m, Visit n m ∈ trace st -> cube n = root -> depth n = 0;
  ord_done : forall n m, Visit n m ∈ trace st ->
    move_done (self st) !! cube n = Some m;
  ord_visit_link : forall n m, Visit n m ∈ trace st ->
    parent_link root (trace st) n m;
  ord_queue_link : forall e, e ∈ pq st -> parent_link root (trace st) e.1 e.2
}.

(** Every visited cube so far was found unsolved. *)
Definition unsolved_inv (isSolved : T -> bool) (st : Search (T := T)) : Prop :=
  forall n m, Visit n m ∈ trace st -> isSolved (cube n) = false.

(** Every pruned node lies one level below a queued one. *)
Definition prune_inv (bound : Z) (st : Search (T := T)) : Prop :=
  forall n, Prune n ∈ trace st ->
    estimate n = 0 /\ 1 <= depth n <= Z.max 0 bound + 1.

(** The state inside the [for] loop that expands the visited node [cur]:
    [done] are the moves tried so far. *)
Record expanding (isSolved : T -> bool) (s0 : Solver (T := T)) (root : T)
    (bound : Z) (cur : Node (T := T)) (done : list Z)
    (acc : Node (T := T) * Search (T := T)) : Prop := mk_expanding {
  exp_search : search_inv s0 bound acc.2;
  exp_reach : reach_inv move root acc.2;
  exp_unsolved : unsolved_inv isSolved acc.2;
  exp_prune : prune_inv bound acc.2;
  exp_order : order_inv root bound (fun n i => n <> cur \/ i ∈ done) acc.2;
  exp_cube : cube acc.1 = cube cur;
  exp_level : depth acc.1 = depth cur + 1;
  exp_visit : exists m, Visit cur m ∈ trace acc.2;
  exp_latest : forall n m, Visit n m ∈ trace acc.2 -> depth n <= depth cur
}.

(** The state each time the loop condition is tested. *)
Record searching (isSolved : T -> bool) (s0 : Solver (T := T)) (root : T)
    (bound : Z) (st : Search (T := T)) : Prop := mk_searching {
  sea_search : search_inv s0 bound st;
  sea_reach : reach_inv move root st;
  sea_unsolved : unsolved_inv isSolved st;
  sea_prune : prune_inv bound st;
  sea_order : order_inv root bound (fun _ _ => True) st
}.

End Order.

End SearchOrder.
(** * Properties *)

(** ** The counting utilities *)

Module CombinatoricsFacts.
Import Combinatorics.

Lemma fact_pos (n : nat) : 0 < fact n.
Proof. induction n as [|n IH]; [done | cbn [fact]; lia]. Qed.

Lemma wrap32_idem (z : Z) : wrap32 (wrap32 z) = wrap32 z.
Proof. unfold wrap32. by rewrite Z.mod_mod. Qed.

Lemma wrap32_small (z : Z) : uint32 z -> wrap32 z = z.
Proof. unfold wrap32, uint32. intros Hz. by apply Z.mod_small. Qed.

Lemma factorial_rec_fact (calls : nat) (n : nat) :
  (n <= calls)%nat -> Z.of_nat n < 2 ^ 32 ->
  factorial_rec calls (Z.of_nat n) = wrap32 (fact n).
Proof.
  revert n. induction calls as [|calls IH]; intros n Hle Hn.
  - assert (n = 0%nat) as -> by lia. reflexivity.
  - destruct n as [|n]; [reflexivity|].
    cbn [factorial_rec].
    destruct (Z.leb_spec (Z.of_nat (S n)) 1) as [H1|H1].
    + assert (n = 0%nat) as -> by lia. reflexivity.
    + replace (Z.of_nat (S n) - 1) with (Z.of_nat n) by lia.
      rewrite (wrap32_small (Z.of_nat n)) by (unfold uint32; lia).
      rewrite IH by lia.
      cbn [fact]. unfold wrap32.
      by rewrite Z.mul_mod_idemp_r.
Qed.

Lemma factorial_fact (n : Z) :
  uint32 n -> factorial n = wrap32 (fact (Z.to_nat n)).
Proof.
  intros [H0 H1]. unfold factorial.
  rewrite <- (Z2Nat.id n) at 2 by done.
  apply factorial_rec_fact; [done | lia].
Qed.

(** The model obeys the equation of the source:
    [factorial(n) = n<=1 ? 1 : n * factorial(n-1)] in 32 bits. *)
Lemma factorial_unfold (n : Z) :
  uint32 n ->
  factorial n = if n <=? 1 then 1 else wrap32 (n * factorial (n - 1)).
Proof.
  intros Hn. destruct (Z.leb_spec n 1) as [H1|H1].
  - unfold factorial. destruct (Z.to_nat n); cbn [factorial_rec];
      by destruct (Z.leb_spec n 1); [|lia].
  - rewrite !factorial_fact by (unfold uint32 in *; lia).
    replace (Z.to_nat n) with (S (Z.to_nat (n - 1))) by lia.
    cbn [fact]. replace (Z.of_nat (S (Z.to_nat (n - 1)))) with n by lia.
    unfold wrap32. by rewrite Z.mul_mod_idemp_r.
Qed.

Lemma fact_le_12 (n : nat) : (n <= 12)%nat -> 0 < fact n < 2 ^ 32.
Proof.
  intros Hn. split; [apply fact_pos|].
  do 13 (destruct n as [|n]; [by vm_compute|]). lia.
Qed.

Lemma factorial_small (n : Z) :
  0 <= n <= 12 -> factorial n = fact (Z.to_nat n).
Proof.
  intros Hn. rewrite factorial_fact by (unfold uint32; lia).
  apply wrap32_small. unfold uint32.
  pose proof (fact_le_12 (Z.to_nat n)). lia.
Qed.

Lemma fact_34_divides (n : nat) : (34 <= n)%nat -> wrap32 (fact n) = 0.
Proof.
  induction 1 as [|n Hle IH].
  - by vm_compute.
  - cbn [fact]. unfold wrap32 in *.
    by rewrite <- Z.mul_mod_idemp_r, IH, Z.mul_0_r.
Qed.

Lemma factorial_large (n : Z) : 34 <= n < 2 ^ 32 -> factorial n = 0.
Proof.
  intros Hn. rewrite factorial_fact by (unfold uint32; lia).
  apply fact_34_divides. lia.
Qed.

End CombinatoricsFacts.

Module CombinatoricsTheorems.
Import Combinatorics CombinatoricsFacts.

Lemma fact_mul_le (a b : nat) : fact a * fact b <= fact (a + b).
Proof.
  induction a as [|a IH]; [cbn [fact Nat.add]; lia|].
  replace (S a + b)%nat with (S (a + b)) by lia.
  cbn [fact].
  pose proof (fact_pos a). pose proof (fact_pos b). pose proof (fact_pos (a + b)).
  nia.
Qed.

Lemma pick_small (n k : Z) :
  0 <= k <= n -> n <= 12 ->
  factorial (wrap32 (n - k)) = fact (Z.to_nat (n - k)) /\
  pick n k = Some (fact (Z.to_nat n) / fact (Z.to_nat (n - k))).
Proof.
  intros Hk Hn. unfold pick.
  rewrite (wrap32_small (n - k)) by (unfold uint32; lia).
  rewrite !factorial_small by lia.
  split; [done|]. unfold udiv.
  pose proof (fact_pos (Z.to_nat (n - k))).
  destruct (Z.eqb_spec (fact (Z.to_nat (n - k))) 0); [lia | done].
Qed.

Lemma choose_small (n k : Z) :
  0 <= k <= n -> n <= 12 ->
  choose n k =
  Some (fact (Z.to_nat n) / (fact (Z.to_nat (n - k)) * fact (Z.to_nat k))).
Proof.
  intros Hk Hn. unfold choose.
  destruct (Z.ltb_spec n k); [lia|].
  rewrite (wrap32_small (n - k)) by (unfold uint32; lia).
  rewrite !factorial_small by lia.
  pose proof (fact_pos (Z.to_nat (n - k))).
  pose proof (fact_pos (Z.to_nat k)).
  pose proof (fact_mul_le (Z.to_nat (n - k)) (Z.to_nat k)) as Hle.
  replace (Z.to_nat (n - k) + Z.to_nat k)%nat with (Z.to_nat n) in Hle by lia.
  pose proof (fact_le_12 (Z.to_nat n)).
  rewrite wrap32_small by (unfold uint32; nia).
  unfold udiv.
  destruct (Z.eqb_spec (fact (Z.to_nat (n - k)) * fact (Z.to_nat k)) 0); [nia | done].
Qed.

Lemma pick_wraps (n k : Z) :
  0 <= n < k -> k < 2 ^ 32 -> k - n <= 2 ^ 32 - 34 ->
  wrap32 (n - k) = 2 ^ 32 - (k - n) /\
  factorial (wrap32 (n - k)) = 0 /\
  pick n k = None.
Proof.
  intros Hn Hk Hd.
  assert (wrap32 (n - k) = 2 ^ 32 - (k - n)) as Hw.
  { unfold wrap32. symmetry.
    apply (Z.mod_unique (n - k) (2 ^ 32) (-1)); lia. }
  assert (factorial (wrap32 (n - k)) = 0) as Hf.
  { rewrite Hw. apply factorial_large. lia. }
  split; [exact Hw|]. split; [exact Hf|].
  unfold pick. rewrite Hf. reflexivity.
Qed.

(** C9. On the documented domain the utilities agree with their reference
    definitions: [factorial n] is n! for n up to 12 (the largest factorial
    that fits 32 bits), [pick n k] is n!/(n-k)! and [choose n k] is
    n!/((n-k)! k!) for k <= n <= 12; [choose n k] is 0 whenever n < k;
    and the four base cases factorial(0) = 1, pick(5,2) = 20,
    choose(5,2) = 10, choose(3,5) = 0 hold. *)
Theorem combinatorics_reference :
  factorial 0 = 1 /\
  pick 5 2 = Some 20 /\
  choose 5 2 = Some 10 /\
  choose 3 5 = Some 0 /\
  (forall n k : Z, uint32 n -> uint32 k -> n < k -> choose n k = Some 0) /\
  (forall n : Z, 0 <= n <= 12 -> factorial n = fact (Z.to_nat n)) /\
  (forall n k : Z, 0 <= k <= n -> n <= 12 ->
     pick n k = Some (fact (Z.to_nat n) / fact (Z.to_nat (n - k)))) /\
  (forall n k : Z, 0 <= k <= n -> n <= 12 ->
     choose n k =
     Some (fact (Z.to_nat n) / (fact (Z.to_nat (n - k)) * fact (Z.to_nat k)))).
Proof.
  split; [reflexivity|]. split; [by vm_compute|]. split; [by vm_compute|].
  split; [reflexivity|]. split; [|split; [|split]].
  - intros n k _ _ Hlt. unfold choose.
    by destruct (Z.ltb_spec n k); [|lia].
  - apply factorial_small.
  - intros n k Hk Hn. by apply pick_small.
  - apply choose_small.
Qed.

(** The reference values at n = 12 and at a pair with n < k. *)
Lemma combinatorics_reference_witness :
  choose 7 9 = Some 0 /\
  factorial 12 = 479001600 /\
  pick 12 3 = Some 1320 /\
  choose 12 3 = Some 220.
Proof.
  destruct combinatorics_reference as (_ & _ & _ & _ & Hlt & Hf & Hp & Hc).
  split; [apply Hlt; unfold uint32; lia|].
  split; [rewrite Hf by lia; reflexivity|].
  split; [rewrite Hp by lia; reflexivity|].
  rewrite Hc by lia. reflexivity.
Defined.

(** C10. [pick] has no guard of its own. For k <= n <= 12 its divisor
    factorial(n-k) is the true (n-k)!, hence nonzero, and the division is
    defined. For n < k the subtraction wraps to 2^32-(k-n); whenever that
    is at least 34 its 32-bit factorial is 0 and [pick] divides by zero,
    where [choose] returns 0. So the guarantee that [pick] is defined does
    not survive without k <= n: pick(0,1) is a division by zero. *)
Theorem pick_requires_k_le_n :
  (forall n k : Z, 0 <= k <= n -> n <= 12 ->
     factorial (wrap32 (n - k)) <> 0 /\ is_Some (pick n k)) /\
  (forall n k : Z, 0 <= n < k -> k < 2 ^ 32 -> k - n <= 2 ^ 32 - 34 ->
     wrap32 (n - k) = 2 ^ 32 - (k - n) /\
     factorial (wrap32 (n - k)) = 0 /\
     pick n k = None /\
     choose n k = Some 0) /\
  pick 0 1 = None /\
  ~ (forall n k : Z, uint32 n -> uint32 k -> n <= 12 -> is_Some (pick n k)).
Proof.
  assert (pick 0 1 = None) as H01.
  { apply (pick_wraps 0 1); lia. }
  split; [|split; [|split]].
  - intros n k Hk Hn. destruct (pick_small n k Hk Hn) as [Hf Hp].
    split; [|rewrite Hp; eexists; reflexivity].
    rewrite Hf. pose proof (fact_pos (Z.to_nat (n - k))). lia.
  - intros n k Hn Hk Hd. destruct (pick_wraps n k Hn Hk Hd) as (Hw & Hf & Hp).
    split; [exact Hw|]. split; [exact Hf|]. split; [exact Hp|].
    unfold choose. destruct (Z.ltb_spec n k); [reflexivity | lia].
  - exact H01.
  - intros Hall. specialize (Hall 0 1).
    rewrite H01 in Hall.
    destruct Hall as [x Hx]; [unfold uint32; lia..|]. discriminate.
Qed.

(** [pick] inside and outside its domain. *)
Lemma pick_requires_k_le_n_witness :
  is_Some (pick 12 5) /\ pick 3 7 = None /\ choose 3 7 = Some 0.
Proof.
  destruct pick_requires_k_le_n as (Hsafe & Hwrap & _ & _).
  split; [apply (Hsafe 12 5); lia|].
  destruct (Hwrap 3 7) as (_ & _ & Hp & Hc); [lia..|].
  by split.
Defined.

End CombinatoricsTheorems.

(** ** The counting utilities past their domain *)

Module CombinatoricsBeyond.
Import Combinatorics CombinatoricsFacts CombinatoricsTheorems.

(** A property checked on every number of a range holds on the range. *)
Lemma forallb_range (P : Z -> bool) (a len : Z) :
  forallb P (seqZ a len) = true ->
  forall n, a <= n < a + len -> P n = true.
Proof.
  intros Hall n Hn. rewrite forallb_forall in Hall.
  apply Hall, list_elem_of_In, elem_of_seqZ. lia.
Qed.

Lemma uint32_wrap32 (z : Z) : uint32 (wrap32 z).
Proof. unfold uint32, wrap32. apply Z.mod_pos_bound. lia. Qed.

Lemma fact_mono (n : nat) : fact n <= fact (S n).
Proof. cbn [fact]. pose proof (fact_pos n). nia. Qed.

Lemma fact_ge_13 (n : nat) : (13 <= n)%nat -> 2 ^ 32 <= fact n.
Proof.
  induction 1 as [|n Hle IH].
  - by vm_compute.
  - pose proof (fact_mono n). lia.
Qed.

Lemma fact_below_34 (n : nat) : (n <= 33)%nat -> wrap32 (fact n) <> 0.
Proof.
  intros Hn. do 34 (destruct n as [|n]; [by vm_compute|]). lia.
Qed.

(** The 32-bit factorial vanishes from 34 on, and nowhere before. *)
Lemma factorial_zero_iff (n : Z) : uint32 n -> factorial n = 0 <-> 34 <= n.
Proof.
  intros Hn. split.
  - intros Hz. destruct (decide (34 <= n)) as [|Hlt]; [done|].
    rewrite factorial_fact in Hz by done.
    destruct (fact_below_34 (Z.to_nat n)); [unfold uint32 in Hn; lia | done].
  - intros Hle. apply factorial_large. unfold uint32 in Hn. lia.
Qed.

(** X10. [factorial] returns n! reduced modulo 2^32, for every argument.
    The value is n! itself exactly up to 12, and it is 0 exactly from 34
    on, where 2^32 divides n!. *)
Theorem factorial_modulo (n : Z) :
  uint32 n ->
  factorial n = fact (Z.to_nat n) mod 2 ^ 32 /\
  (factorial n = fact (Z.to_nat n) <-> n <= 12) /\
  (factorial n = 0 <-> 34 <= n).
Proof.
  intros Hn. split; [by apply factorial_fact|]. split; [|by apply factorial_zero_iff].
  split.
  - intros Heq. destruct (decide (n <= 12)) as [|Hgt]; [done|].
    pose proof (fact_ge_13 (Z.to_nat n)) as Hbig.
    pose proof (uint32_wrap32 (fact (Z.to_nat n))) as Hw.
    rewrite factorial_fact in Heq by done.
    rewrite Heq in Hw. unfold uint32 in Hw. lia.
  - intros Hle. apply factorial_small. unfold uint32 in Hn. lia.
Qed.

Lemma factorial_modulo_witness :
  factorial 13 = 6227020800 mod 2 ^ 32 /\
  factorial 13 <> fact 13 /\
  factorial 33 <> 0 /\
  factorial 34 = 0.
Proof.
  destruct (factorial_modulo 13) as (H13 & Hex & _); [unfold uint32; lia|].
  destruct (factorial_modulo 33) as (_ & _ & H33); [unfold uint32; lia|].
  destruct (factorial_modulo 34) as (_ & _ & H34); [unfold uint32; lia|].
  split; [exact H13|]. split; [|split].
  - intros Heq. apply Hex in Heq. lia.
  - intros Heq. apply H33 in Heq. lia.
  - apply H34. lia.
Defined.

(** X11. [pick] divides by zero exactly when the wrapped difference n-k is
    34 or more. With k <= n that is n-k >= 34: keeping k at most n does
    not keep the division defined. *)
Theorem pick_undefined_iff (n k : Z) :
  uint32 n -> uint32 k ->
  (pick n k = None <-> 34 <= wrap32 (n - k)) /\
  (k <= n -> (pick n k = None <-> 34 <= n - k)).
Proof.
  intros Hn Hk.
  assert (pick n k = None <-> 34 <= wrap32 (n - k)) as Hiff.
  { rewrite <- (factorial_zero_iff (wrap32 (n - k))) by apply uint32_wrap32.
    unfold pick, udiv.
    destruct (Z.eqb_spec (factorial (wrap32 (n - k))) 0); split; done. }
  split; [exact Hiff|]. intros Hle.
  rewrite Hiff, wrap32_small; [done|]. unfold uint32 in *. lia.
Qed.

Lemma pick_undefined_iff_witness :
  pick 40 3 = None /\ pick 40 7 <> None.
Proof.
  destruct (pick_undefined_iff 40 3) as [_ H3]; [unfold uint32; lia..|].
  destruct (pick_undefined_iff 40 7) as [_ H7]; [unfold uint32; lia..|].
  split.
  - apply H3; lia.
  - intros Hnone. apply H7 in Hnone; lia.
Defined.

(** X12. [choose] is symmetric, in value and in whether the division is
    defined: choose(n, k) and choose(n, n-k) are the same for k <= n. *)
Theorem choose_symmetric (n k : Z) :
  uint32 n -> 0 <= k <= n ->
  choose n k = choose n (n - k).
Proof.
  intros Hn Hk. unfold choose.
  destruct (Z.ltb_spec n k); [lia|]. destruct (Z.ltb_spec n (n - k)); [lia|].
  replace (n - (n - k)) with k by lia.
  rewrite (wrap32_small k), (wrap32_small (n - k)) by (unfold uint32 in *; lia).
  by rewrite Z.mul_comm.
Qed.

Lemma choose_symmetric_witness :
  choose 12 3 = choose 12 9 /\ choose 40 2 = choose 40 38.
Proof.
  split; apply choose_symmetric; unfold uint32; lia.
Defined.

Lemma choose_none_iff (n k : Z) :
  uint32 n -> 0 <= k <= n ->
  choose n k = None <-> wrap32 (factorial (n - k) * factorial k) = 0.
Proof.
  intros Hn Hk. unfold choose, udiv. destruct (Z.ltb_spec n k); [lia|].
  rewrite (wrap32_small (n - k)) by (unfold uint32 in *; lia).
  destruct (Z.eqb_spec (wrap32 (factorial (n - k) * factorial k)) 0);
    split; done.
Qed.

Lemma choose_none_large (n k : Z) :
  uint32 n -> 0 <= k <= n ->
  34 <= k \/ 34 <= n - k -> choose n k = None.
Proof.
  intros Hn Hk Hbig. apply choose_none_iff; [done | done |].
  destruct Hbig as [Hbig|Hbig].
  - rewrite (proj2 (factorial_zero_iff k ltac:(unfold uint32 in *; lia)) Hbig).
    by rewrite Z.mul_0_r.
  - rewrite (proj2 (factorial_zero_iff (n - k) ltac:(unfold uint32 in *; lia)) Hbig).
    done.
Qed.

(** X13. The guard [n < k] of [choose] does not keep its division defined.
    With k <= n the divisor is the wrapped product of two wrapped
    factorials: it is 0 as soon as k or n-k reaches 34 (so choose(n, 0) is
    a division by zero for every n from 34 on), it can be 0 below that
    (choose(36, 18)), and it is never 0 for n up to 33. *)
Theorem choose_undefined (n k : Z) :
  uint32 n -> 0 <= k <= n ->
  (choose n k = None <-> wrap32 (factorial (n - k) * factorial k) = 0) /\
  (34 <= k \/ 34 <= n - k -> choose n k = None) /\
  (n <= 33 -> is_Some (choose n k)).
Proof.
  intros Hn Hk.
  pose proof (choose_none_iff n k Hn Hk) as Hiff.
  split; [exact Hiff|]. split; [by apply choose_none_large|].
  intros Hle.
  assert (forallb (fun n =>
            forallb (fun k =>
              if k <=? n
              then negb (wrap32 (factorial (n - k) * factorial k) =? 0)
              else true) (seqZ 0 34)) (seqZ 0 34) = true) as Hall
    by (vm_compute; reflexivity).
  pose proof (forallb_range _ _ _ Hall n ltac:(lia)) as Hrow. cbn beta in Hrow.
  pose proof (forallb_range _ _ _ Hrow k ltac:(lia)) as Hcell. cbn beta in Hcell.
  clear Hall Hrow. destruct (Z.leb_spec k n); [|lia].
  apply negb_true_iff, Z.eqb_neq in Hcell.
  destruct (choose n k) as [c|]; [by eexists|].
  exfalso. apply Hcell. by apply Hiff.
Qed.

Lemma choose_undefined_witness :
  choose 34 0 = None /\ choose 36 18 = None /\ is_Some (choose 33 16).
Proof.
  destruct (choose_undefined 34 0) as (_ & H34 & _); [unfold uint32; lia | lia |].
  destruct (choose_undefined 36 18) as (H36 & _ & _); [unfold uint32; lia | lia |].
  destruct (choose_undefined 33 16) as (_ & _ & H33); [unfold uint32; lia | lia |].
  split; [apply H34; lia|]. split; [|apply H33; lia].
  apply H36. vm_compute. reflexivity.
Defined.

(** X14. The documented domain of [choose] is exact: choose(n, 2) is the
    number of pairs n(n-1)/2 for n up to 12 and for no larger n. From 13
    to 35 the wrapped factorials give another number, and from 36 on the
    call divides by zero. *)
Theorem choose_exact_domain (n : Z) :
  uint32 n ->
  (choose n 2 = Some (n * (n - 1) / 2) <-> n <= 12).
Proof.
  intros Hn. unfold uint32 in Hn. split.
  - intros Heq. destruct (decide (n <= 12)) as [|Hgt]; [done|].
    destruct (decide (n <= 35)) as [Hle|Hbig].
    + assert (forallb (fun n =>
                match choose n 2 with
                | Some c => negb (c =? n * (n - 1) / 2)
                | None => true
                end) (seqZ 13 23) = true) as Hall
        by (vm_compute; reflexivity).
      pose proof (forallb_range _ _ _ Hall n ltac:(lia)) as Hrow.
      cbn beta in Hrow. clear Hall. rewrite Heq in Hrow.
      apply negb_true_iff, Z.eqb_neq in Hrow. destruct (Hrow eq_refl).
    + rewrite (choose_none_large n 2) in Heq;
        [done | unfold uint32; lia | lia | lia].
  - intros Hle.
    assert (forallb (fun n =>
              match choose n 2 with
              | Some c => c =? n * (n - 1) / 2
              | None => false
              end) (seqZ 0 13) = true) as Hall
      by (vm_compute; reflexivity).
    pose proof (forallb_range _ _ _ Hall n ltac:(lia)) as Hrow.
    cbn beta in Hrow. clear Hall.
    destruct (choose n 2) as [c|]; [|discriminate Hrow].
    apply Z.eqb_eq in Hrow. by rewrite Hrow.
Qed.

Lemma choose_exact_domain_witness :
  choose 12 2 = Some 66 /\ choose 13 2 <> Some 78.
Proof.
  destruct (choose_exact_domain 12) as [_ H12]; [unfold uint32; lia|].
  destruct (choose_exact_domain 13) as [H13 _]; [unfold uint32; lia|].
  split.
  - rewrite H12 by lia. reflexivity.
  - intros Heq. apply H13 in Heq. lia.
Defined.

(** X15. On the domain the three utilities fit together as the numbers
    they stand for do. For k <= n <= 12, [pick] is [choose] times k!; and
    for k < n < 12, Pascal's rule holds:
    choose(n+1, k+1) = choose(n, k) + choose(n, k+1). *)
Theorem counting_identities (n k : Z) :
  0 <= k <= n -> n <= 12 ->
  pick n k = (fun c => c * factorial k) <$> choose n k /\
  (k < n -> n < 12 ->
   match choose n k, choose n (k + 1), choose (n + 1) (k + 1) with
   | Some a, Some b, Some c => c = a + b
   | _, _, _ => False
   end).
Proof.
  intros Hk Hn.
  assert (forallb (fun n =>
            forallb (fun k =>
              if k <=? n then
                match pick n k, choose n k with
                | Some p, Some c => p =? c * factorial k
                | _, _ => false
                end &&
                (if (k <? n) && (n <? 12) then
                   match choose n k, choose n (k + 1), choose (n + 1) (k + 1) with
                   | Some a, Some b, Some c => c =? a + b
                   | _, _, _ => false
                   end
                 else true)
              else true) (seqZ 0 13)) (seqZ 0 13) = true) as Hall
    by (vm_compute; reflexivity).
  pose proof (forallb_range _ _ _ Hall n ltac:(lia)) as Hrow. cbn beta in Hrow.
  pose proof (forallb_range _ _ _ Hrow k ltac:(lia)) as Hcell. cbn beta in Hcell.
  clear Hall Hrow. destruct (Z.leb_spec k n); [|lia].
  apply andb_true_iff in Hcell as [Hpick Hpascal]. split.
  - destruct (pick n k) as [p|], (choose n k) as [c|]; try done.
    apply Z.eqb_eq in Hpick. by rewrite Hpick.
  - intros Hlt Hlt'.
    destruct (Z.ltb_spec k n); [|lia]. destruct (Z.ltb_spec n 12); [|lia].
    cbn [andb] in Hpascal.
    destruct (choose n k) as [a|], (choose n (k + 1)) as [b|],
      (choose (n + 1) (k + 1)) as [c|]; try done.
    by apply Z.eqb_eq in Hpascal.
Qed.

Lemma counting_identities_witness :
  pick 10 4 = (fun c => c * factorial 4) <$> choose 10 4 /\
  match choose 10 4, choose 10 5, choose 11 5 with
  | Some a, Some b, Some c => c = a + b
  | _, _, _ => False
  end.
Proof.
  destruct (counting_identities 10 4) as [Hp Hpascal]; [lia | lia |].
  split; [exact Hp|]. apply Hpascal; lia.
Defined.

End CombinatoricsBeyond.
(** ** The frontier and the maps *)

Module FrontierFacts.
Import IDAstarSolver.

Section Frontier.
Context {T : Type}.

Implicit Types (a b e x : @Node T * Z) (q r : list (@Node T * Z)).

(** The comparator is the strict order "larger (cost, estimate) pair". *)
Lemma compareCube_true a b :
  compareCube a b = true <->
  cost b.1 < cost a.1 \/ (cost b.1 = cost a.1 /\ estimate b.1 < estimate a.1).
Proof.
  unfold compareCube, cost.
  repeat case_bool_decide; split; intros; try done; lia.
Qed.

Lemma compareCube_false a b :
  compareCube a b = false <->
  cost a.1 < cost b.1 \/ (cost a.1 = cost b.1 /\ estimate a.1 <= estimate b.1).
Proof.
  unfold compareCube, cost.
  repeat case_bool_decide; split; intros; try done; lia.
Qed.

Lemma pq_extract_nil q : pq_extract q = None <-> q = [].
Proof.
  destruct q as [|x q]; [done|]. cbn [pq_extract].
  split; [|done].
  destruct (pq_extract q) as [[y r]|]; [|done].
  by destruct (compareCube x y).
Qed.

Lemma pq_extract_perm q e r : pq_extract q = Some (e, r) -> q ≡ₚ e :: r.
Proof.
  revert e r. induction q as [|x q IH]; intros e r Hq; [done|].
  cbn [pq_extract] in Hq.
  destruct (pq_extract q) as [[y r']|] eqn:Hq'.
  - specialize (IH _ _ eq_refl).
    destruct (compareCube x y); simplify_eq; [|done].
    rewrite IH. apply Permutation_swap.
  - apply pq_extract_nil in Hq'. by simplify_eq.
Qed.

Lemma pq_extract_top q e r :
  pq_extract q = Some (e, r) -> forall x, x ∈ q -> compareCube e x = false.
Proof.
  revert e r. induction q as [|x q IH]; intros e r Hq z Hz; [done|].
  cbn [pq_extract] in Hq.
  destruct (pq_extract q) as [[y r']|] eqn:Hq'.
  - specialize (IH _ _ eq_refl).
    destruct (compareCube x y) eqn:Hxy; simplify_eq.
    + apply elem_of_cons in Hz as [->|Hz]; [|by apply IH].
      apply compareCube_true in Hxy. apply compareCube_false. lia.
    + apply compareCube_false in Hxy.
      apply elem_of_cons in Hz as [->|Hz].
      * apply compareCube_false. lia.
      * specialize (IH _ Hz). apply compareCube_false in IH.
        apply compareCube_false. lia.
  - apply pq_extract_nil in Hq'. simplify_eq.
    apply list_elem_of_singleton in Hz as ->.
    apply compareCube_false. lia.
Qed.

Lemma pq_extract_elem q e r : pq_extract q = Some (e, r) -> e ∈ q.
Proof. intros Hq. rewrite (pq_extract_perm _ _ _ Hq). by left. Qed.

Lemma pq_extract_rest q e r x : pq_extract q = Some (e, r) -> x ∈ r -> x ∈ q.
Proof. intros Hq Hx. rewrite (pq_extract_perm _ _ _ Hq). by right. Qed.

(** C7. The comparator puts node A before node B (that is, [compareCube]
    ranks B below A) exactly when A's cost is smaller, or the costs are
    equal and A's estimate is smaller; and what the queue hands out is one
    of its entries with minimal cost and, among those of that cost, minimal
    estimate. A non-empty queue always hands out an entry. *)
Theorem frontier_order :
  (forall a b,
     compareCube b a = true <->
     cost a.1 < cost b.1 \/ (cost a.1 = cost b.1 /\ estimate a.1 < estimate b.1)) /\
  (forall q e r,
     pq_extract q = Some (e, r) ->
     e ∈ q /\ q ≡ₚ e :: r /\
     forall x, x ∈ q ->
       cost e.1 <= cost x.1 /\ (cost x.1 = cost e.1 -> estimate e.1 <= estimate x.1)) /\
  (forall q, q <> [] -> is_Some (pq_extract q)).
Proof.
  split; [|split].
  - intros a b. apply compareCube_true.
  - intros q e r Hq. split; [by eapply pq_extract_elem|].
    split; [by apply pq_extract_perm|].
    intros x Hx. pose proof (pq_extract_top _ _ _ Hq x Hx) as Hc.
    apply compareCube_false in Hc. lia.
  - intros q Hq. destruct (pq_extract q) eqn:Hx; [by eexists|].
    by apply pq_extract_nil in Hx.
Qed.

End Frontier.

Section Maps.
Context {T : Type} `{Countable T}.

Lemma map_index_fst {V} (d : V) (m : gmap T V) (k : T) :
  (map_index d m k).1 = default d (m !! k).
Proof. unfold map_index. by destruct (m !! k). Qed.

Lemma map_index_lookup {V} (d : V) (m : gmap T V) (k k' : T) :
  default d ((map_index d m k).2 !! k') = default d (m !! k').
Proof.
  unfold map_index. destruct (m !! k) eqn:Hk; [done|]. cbn.
  destruct (decide (k = k')) as [->|Hne].
  - by rewrite lookup_insert_eq, Hk.
  - by rewrite lookup_insert_ne.
Qed.

Lemma map_index_true (m : gmap T bool) (k k' : T) :
  (map_index false m k).2 !! k' = Some true <-> m !! k' = Some true.
Proof.
  unfold map_index. destruct (m !! k) eqn:Hk; [done|]. cbn.
  destruct (decide (k = k')) as [->|Hne].
  - rewrite lookup_insert_eq, Hk. split; intros; simplify_eq.
  - by rewrite lookup_insert_ne.
Qed.

End Maps.

(** The running minimum that [next_bound] keeps. *)
Lemma foldr_min_spec (m0 : Z) (l : list Z) :
  foldr Z.min m0 l <= m0 /\
  (forall c, c ∈ l -> foldr Z.min m0 l <= c) /\
  (foldr Z.min m0 l = m0 \/ foldr Z.min m0 l ∈ l).
Proof.
  induction l as [|x l (IH1 & IH2 & IH3)]; cbn -[Z.min].
  - split; [lia|]. split; [|by left]. intros c Hc. by apply elem_of_nil in Hc.
  - split; [lia|]. split.
    + intros c Hc. apply elem_of_cons in Hc as [->|Hc]; [lia|].
      specialize (IH2 c Hc). lia.
    + destruct (Z.min_spec x (foldr Z.min m0 l)) as [[_ ->]|[_ ->]].
      * right. by left.
      * destruct IH3 as [IH3|IH3]; [by left|]. right. by right.
Qed.

End FrontierFacts.

(** ** One call of IDAstar *)

Module SearchFacts.
Import IDAstarSolver SearchSpec FrontierFacts.

Section Search.
Context {T : Type} `{Countable T}.
Variable move : T -> MOVE -> T.
Variable invert : T -> MOVE -> T.
Variable isSolved : T -> bool.

Local Abbreviation probe := (probe move invert).
Local Abbreviation loop_body := (loop_body move invert isSolved).
Local Abbreviation IDAstar_loop := (IDAstar_loop move invert isSolved).
Local Abbreviation IDAstar := (IDAstar move invert isSolved).

Implicit Types (s : Solver (T := T)) (st : Search (T := T)) (node n : Node (T := T)).

(** The three ways through the body of the [for] loop. *)
Lemma probe_eq bound node st i :
  probe bound (node, st) i =
  let c := move (cube node) i in
  let mi := map_index false (visited (self st)) c in
  let s' := set_visited (self st) mi.2 in
  let back := invert c i in
  if mi.1 then
    (mkNode back (depth node) (estimate node),
     mkSearch (pq st) (next_bound st) s' (trace st))
  else if bool_decide (depth node + 0 > bound) then
    (mkNode back (depth node) 0,
     mkSearch (pq st) (Z.min (next_bound st) (depth node + 0)) s'
              (Prune (mkNode c (depth node) 0) :: trace st))
  else
    (mkNode back (depth node) 0,
     mkSearch (pq_push (mkNode c (depth node) 0, i) (pq st)) (next_bound st) s'
              (Push (mkNode c (depth node) 0) i :: trace st)).
Proof.
  unfold probe. cbn.
  destruct (map_index false (visited (self st)) (move (cube node) i)) as [seen vis].
  destruct seen; cbn; [done|].
  by case_bool_decide.
Qed.

Lemma foldl_probe_ind (Q : Node (T := T) * Search (T := T) -> Prop) bound (l : list Z) acc :
  Q acc ->
  (forall a i, i ∈ l -> Q a -> Q (probe bound a i)) ->
  Q (foldl (probe bound) acc l).
Proof.
  revert acc. induction l as [|i l IH]; intros acc Hacc Hstep; [done|].
  cbn. apply IH.
  - apply Hstep; [by left | done].
  - intros a j Hj. apply Hstep. by right.
Qed.

Lemma IDAstar_loop_ind (P : Search (T := T) -> Prop) bound :
  (forall st st', P st -> loop_body bound st = Continue st' -> P st') ->
  forall fuel st r st',
    P st -> IDAstar_loop fuel bound st = Some (r, st') ->
    exists st0, P st0 /\ loop_body bound st0 = Return r st'.
Proof.
  intros Hstep fuel. induction fuel as [|fuel IH]; intros st r st' HP Hrun; [done|].
  cbn [IDAstarSolver.IDAstar_loop] in Hrun.
  destruct (loop_body bound st) as [r0 st0|st1] eqn:Hbody.
  - simplify_eq. by exists st.
  - eapply IH; [|done]. by eapply Hstep.
Qed.

(** More fuel never changes a result. *)
Lemma IDAstar_loop_mono fuel fuel' bound st res :
  IDAstar_loop fuel bound st = Some res -> (fuel <= fuel')%nat ->
  IDAstar_loop fuel' bound st = Some res.
Proof.
  revert fuel' st. induction fuel as [|fuel IH]; intros fuel' st Hrun Hle; [done|].
  destruct fuel' as [|fuel']; [lia|].
  cbn [IDAstarSolver.IDAstar_loop] in *.
  destruct (loop_body bound st); [done|].
  apply IH; [done | lia].
Qed.

Lemma IDAstar_mono fuel fuel' bound s res :
  IDAstar fuel bound s = Some res -> (fuel <= fuel')%nat ->
  IDAstar fuel' bound s = Some res.
Proof.
  unfold IDAstarSolver.IDAstar. intros Hrun Hle.
  destruct (IDAstar_loop fuel bound (IDAstar_init s)) as [[r st]|] eqn:Hl; [|done].
  by rewrite (IDAstar_loop_mono _ _ _ _ _ Hl Hle).
Qed.

Lemma Continue_inj st st' : Continue st = Continue st' -> st = st'.
Proof. by intros [= ->]. Qed.

(** The two ways the function returns. *)
Lemma loop_body_return bound st r st' :
  loop_body bound st = Return r st' ->
  (pq st = [] /\ r = (rubiksCube (self st), next_bound st) /\ st' = st) \/
  (exists p q,
     pq_extract (pq st) = Some (p, q) /\
     (map_index false (visited (self st)) (cube p.1)).1 = false /\
     isSolved (cube p.1) = true /\
     r = (cube p.1, bound) /\
     st' = mkSearch q (next_bound st) (self (visit_state st p q))
                    (Solved p.1 :: trace (visit_state st p q))).
Proof.
  unfold IDAstarSolver.loop_body. intros Hbody.
  destruct (pq_extract (pq st)) as [[p q]|] eqn:Hq.
  - right. exists p, q. split; [done|]. unfold visit_state.
    destruct (map_index false (visited (self st)) (cube p.1)) as [seen vis].
    cbn [fst snd]. destruct seen; [done|].
    destruct (isSolved (cube p.1)) eqn:Hs; [|done].
    by simplify_eq.
  - left. apply pq_extract_nil in Hq. by simplify_eq.
Qed.

Lemma loop_body_continue bound st st' :
  loop_body bound st = Continue st' ->
  exists p q,
    pq_extract (pq st) = Some (p, q) /\
    let mi := map_index false (visited (self st)) (cube p.1) in
    (mi.1 = true /\
     st' = mkSearch q (next_bound st) (set_visited (self st) mi.2)
                    (Skip p.1 :: trace st)) \/
    (mi.1 = false /\ isSolved (cube p.1) = false /\
     st' = (foldl (probe bound)
              (mkNode (cube p.1) (depth p.1 + 1) (estimate p.1),
               visit_state st p q)
              move_indices).2).
Proof.
  unfold IDAstarSolver.loop_body. intros Hbody.
  destruct (pq_extract (pq st)) as [[p q]|] eqn:Hq; [|done].
  exists p, q. split; [done|]. cbn zeta. unfold visit_state.
  destruct (map_index false (visited (self st)) (cube p.1)) as [seen vis].
  cbn [fst snd]. destruct seen.
  - left. apply Continue_inj in Hbody as <-. split; reflexivity.
  - destruct (isSolved (cube p.1)) eqn:Hs; [done|].
    right. apply Continue_inj in Hbody as <-. split; [|split]; reflexivity.
Qed.

(** *** The invariant of the loop *)

Lemma search_inv_init s bound : search_inv s bound (IDAstar_init s).
Proof.
  split; cbn.
  - intros e He. apply list_elem_of_singleton in He as ->. cbn. lia.
  - intros ev Hev. by apply list_elem_of_singleton in Hev as ->.
  - done.
  - intros n Hn. by apply list_elem_of_singleton in Hn.
  - intros n Hn. by apply list_elem_of_singleton in Hn.
  - constructor.
  - intros c Hc. by apply elem_of_nil in Hc.
  - done.
  - done.
  - done.
  - done.
Qed.

Lemma search_inv_probe s0 bound node st i :
  0 < depth node ->
  search_inv s0 bound st ->
  search_inv s0 bound (probe bound (node, st) i).2 /\
  depth (probe bound (node, st) i).1 = depth node.
Proof.
  intros Hd [Hq Hev Hnb Hpr Huns Honce Hmark Hstale Hroot Hmoves Hdb].
  rewrite probe_eq. cbn zeta.
  set (c := move (cube node) i).
  assert (forall c', (map_index false (visited (self st)) c).2 !! c' = Some true
                     <-> visited (self st) !! c' = Some true) as Hvis
    by apply map_index_true.
  destruct (map_index false (visited (self st)) c).1.
  - split; [|done]. split; cbn -[Z.min Z.max]; try done.
    + intros c' Hc'. destruct (Hmark c' Hc'). by rewrite Hvis.
    + intros c' Hc'. rewrite Hvis. by apply Hstale.
  - case_bool_decide as Hcmp.
    + split; [|done]. split; cbn -[Z.min Z.max]; try done.
      * intros ev Hev'. apply elem_of_cons in Hev' as [->|Hev']; [done|by apply Hev].
      * rewrite Hnb. apply Z.min_comm.
      * intros n Hn. apply elem_of_cons in Hn as [[= ->]|Hn]; [|by apply Hpr].
        unfold cost. cbn. lia.
      * intros n Hn. apply elem_of_cons in Hn as [?|Hn]; [done|by apply (Huns n)].
      * intros c' Hc'. destruct (Hmark c' Hc'). by rewrite Hvis.
      * intros c' Hc'. rewrite Hvis. by apply Hstale.
    + split; [|done]. split; cbn -[Z.min Z.max]; try done.
      * intros e He. unfold pq_push in He.
        apply elem_of_app in He as [He|He]; [by apply Hq|].
        apply list_elem_of_singleton in He as ->. cbn. lia.
      * intros ev Hev'. apply elem_of_cons in Hev' as [->|Hev']; [done|by apply Hev].
      * intros n Hn. apply elem_of_cons in Hn as [?|Hn]; [done|by apply Hpr].
      * intros n Hn. apply elem_of_cons in Hn as [?|Hn]; [done|by apply (Huns n)].
      * intros c' Hc'. destruct (Hmark c' Hc'). by rewrite Hvis.
      * intros c' Hc'. rewrite Hvis. by apply Hstale.
Qed.

Lemma search_inv_foldl s0 bound (l : list Z) node st :
  0 < depth node ->
  search_inv s0 bound st ->
  search_inv s0 bound (foldl (probe bound) (node, st) l).2.
Proof.
  intros Hd Hinv.
  apply (foldl_probe_ind
           (fun a => search_inv s0 bound a.2 /\ depth a.1 = depth node)).
  - done.
  - intros [n' st'] j _ [Hi Hdn]. cbn in Hi, Hdn.
    destruct (search_inv_probe s0 bound n' st' j) as [Hi' Hd']; [lia | done |].
    split; [done | congruence].
Qed.

Lemma search_inv_visit s0 bound st p q :
  search_inv s0 bound st ->
  pq_extract (pq st) = Some (p, q) ->
  (map_index false (visited (self st)) (cube p.1)).1 = false ->
  search_inv s0 bound (visit_state st p q).
Proof.
  intros [Hq Hev Hnb Hpr Huns Honce Hmark Hstale Hroot Hmoves Hdb] Hx Hs.
  pose proof (pq_extract_elem _ _ _ Hx) as Hp.
  assert (forall e, e ∈ q -> e ∈ pq st) as Hsub
    by (intros e He; by eapply pq_extract_rest).
  assert (forall c', (map_index false (visited (self st)) (cube p.1)).2 !! c' = Some true
                     <-> visited (self st) !! c' = Some true) as Hvis
    by apply map_index_true.
  pose proof (map_index_fst false (visited (self st)) (cube p.1)) as Hseen.
  destruct (Hq p Hp) as [Hest Hdep].
  rewrite Hs in Hseen.
  assert (visited (self st) !! cube p.1 <> Some true) as Hnew.
  { intros Heq. by rewrite Heq in Hseen. }
  split; cbn -[Z.min Z.max]; try done.
  - intros e He. by apply Hq, Hsub.
  - intros ev Hev'. apply elem_of_cons in Hev' as [->|Hev']; [done|by apply Hev].
  - intros n Hn. apply elem_of_cons in Hn as [?|Hn]; [done|by apply Hpr].
  - intros n Hn. apply elem_of_cons in Hn as [?|Hn]; [done|by apply (Huns n)].
  - constructor; [|done]. intros Hin. by destruct (Hmark _ Hin).
  - intros c' Hc'. apply elem_of_cons in Hc' as [->|Hc'].
    + rewrite lookup_insert_eq. split; [done|].
      intros Hst. by apply Hnew, Hstale.
    + destruct (Hmark c' Hc') as [Hm1 Hm2]. split; [|done].
      destruct (decide (cube p.1 = c')) as [Heq|Hne].
      * rewrite Heq. apply lookup_insert_eq.
      * by rewrite lookup_insert_ne, Hvis.
  - intros c' Hc'.
    destruct (decide (cube p.1 = c')) as [Heq|Hne].
    + rewrite Heq. apply lookup_insert_eq.
    + rewrite lookup_insert_ne, Hvis by done. by apply Hstale.
Qed.

Lemma search_inv_step s0 bound st st' :
  search_inv s0 bound st ->
  loop_body bound st = Continue st' ->
  search_inv s0 bound st'.
Proof.
  intros Hinv Hbody.
  apply loop_body_continue in Hbody as (p & q & Hx & Hcase).
  destruct Hcase as [[Hs ->]|(Hs & Hunsolved & ->)].
  - destruct Hinv as [Hq Hev Hnb Hpr Huns Honce Hmark Hstale Hroot Hmoves Hdb].
    pose proof (pq_extract_elem _ _ _ Hx) as Hp.
    assert (forall c', (map_index false (visited (self st)) (cube p.1)).2 !! c' = Some true
                       <-> visited (self st) !! c' = Some true) as Hvis
      by apply map_index_true.
    destruct (Hq p Hp) as [Hest Hdep].
    split; cbn -[Z.min Z.max]; try done.
    + intros e He. apply Hq. by eapply pq_extract_rest.
    + intros ev Hev'. apply elem_of_cons in Hev' as [->|Hev']; [done|by apply Hev].
    + intros n Hn. apply elem_of_cons in Hn as [?|Hn]; [done|by apply Hpr].
    + intros n Hn. apply elem_of_cons in Hn as [?|Hn]; [done|by apply (Huns n)].
    + intros c' Hc'. destruct (Hmark c' Hc'). by rewrite Hvis.
    + intros c' Hc'. rewrite Hvis. by apply Hstale.
  - apply search_inv_foldl; [|by apply search_inv_visit].
    destruct (inv_queue _ _ _ Hinv p (pq_extract_elem _ _ _ Hx)). cbn. lia.
Qed.

(** What a finished call leaves: the invariant held when the last pass
    began, and that pass returned. *)
Lemma IDAstar_returns fuel bound s r s' tr :
  IDAstar fuel bound s = Some (r, s', tr) ->
  exists st0 st',
    search_inv s bound st0 /\
    loop_body bound st0 = Return r st' /\
    s' = self st' /\ tr = trace st'.
Proof.
  unfold IDAstarSolver.IDAstar.
  destruct (IDAstar_loop fuel bound (IDAstar_init s)) as [[r0 st']|] eqn:Hl; [|done].
  intros [= -> <- <-].
  destruct (IDAstar_loop_ind (search_inv s bound) bound
              (fun st st' => search_inv_step s bound st st')
              fuel (IDAstar_init s) r st' (search_inv_init s bound) Hl)
    as (st0 & Hinv & Hret).
  by exists st0, st'.
Qed.

(** Everything the later properties need about a finished call. *)
Lemma IDAstar_outcome fuel bound s r s' tr :
  IDAstar fuel bound s = Some (r, s', tr) ->
  (forall ev, ev ∈ tr -> estimate (event_node ev) = 0) /\
  (forall n, Prune n ∈ tr -> bound < cost n) /\
  NoDup (visited_cubes tr) /\
  (forall c, c ∈ visited_cubes tr ->
     visited s !! c <> Some true /\ visited s' !! c = Some true) /\
  rubiksCube s' = rubiksCube s /\
  moves s' = moves s /\
  cornerDB s' = cornerDB s /\
  ((~ reached_solved tr /\
    r = (rubiksCube s, foldr Z.min 100 (pruned_costs tr))) \/
   (exists n m tr0,
      tr = Solved n :: Visit n m :: tr0 /\
      (forall n', Solved n' ∉ tr0) /\
      isSolved (cube n) = true /\
      r = (cube n, bound) /\
      0 <= depth n <= Z.max 0 bound)).
Proof.
  intros Hrun.
  apply IDAstar_returns in Hrun as (st0 & st' & Hinv & Hret & -> & ->).
  apply loop_body_return in Hret as [(Hnil & -> & ->)|(p & q & Hx & Hs & Hsol & -> & ->)].
  - destruct Hinv as [Hq Hev Hnb Hpr Huns Honce Hmark Hstale Hroot Hmoves Hdb].
    repeat split; try done.
    + by apply Hmark.
    + by apply Hmark.
    + left. split; [|by rewrite Hroot, Hnb].
      intros [n Hn]. by apply (Huns n).
  - pose proof (inv_queue _ _ _ Hinv p (pq_extract_elem _ _ _ Hx)) as [Hest Hdep].
    pose proof (inv_unsolved _ _ _ Hinv) as Huns0.
    pose proof (search_inv_visit _ _ _ _ _ Hinv Hx Hs)
      as [Hq Hev Hnb Hpr Huns Honce Hmark Hstale Hroot Hmoves Hdb].
    cbn [self trace] in *.
    repeat split; try done.
    + intros ev Hev'. apply elem_of_cons in Hev' as [->|Hev']; [done|by apply Hev].
    + intros n Hn. apply elem_of_cons in Hn as [?|Hn]; [done|by apply Hpr].
    + by apply Hmark.
    + by apply Hmark.
    + right. exists p.1, p.2, (trace st0). repeat split; try done; lia.
Qed.

(** Whatever table the object carries, the start node and every node a
    call creates or touches has estimate 0: the table is never read. *)
Lemma estimates_are_zero fuel bound s r s' tr :
  IDAstar fuel bound s = Some (r, s', tr) ->
  Seed (mkNode (rubiksCube s) 0 0) ∈ tr /\
  forall ev, ev ∈ tr -> estimate (event_node ev) = 0.
Proof.
  intros Hrun. split; [|by eapply IDAstar_outcome].
  unfold IDAstarSolver.IDAstar in Hrun.
  destruct (IDAstar_loop fuel bound (IDAstar_init s)) as [[r0 st']|] eqn:Hl; [|done].
  injection Hrun as -> <- <-.
  destruct (IDAstar_loop_ind
              (fun st => Seed (mkNode (rubiksCube s) 0 0) ∈ trace st) bound)
    with (fuel := fuel) (st := IDAstar_init s) (r := r) (st' := st')
    as (st0 & Hin & Hret); [| by left | done |].
  - intros st st1 Hin Hbody.
    apply loop_body_continue in Hbody as (p & q & _ & [[_ ->]|(_ & _ & ->)]).
    + by right.
    + apply (foldl_probe_ind
               (fun a => Seed (mkNode (rubiksCube s) 0 0) ∈ trace a.2)).
      * by right.
      * intros [n1 st1] i _ Hin1. rewrite probe_eq. cbn zeta.
        destruct (map_index false (visited (self st1)) (move (cube n1) i)).1;
          [done|]. case_bool_decide; by right.
  - apply loop_body_return in Hret as [(_ & _ & ->)|(p & q & _ & _ & _ & _ & ->)];
      [done|]. by do 2 right.
Qed.

(** *** Termination *)

Lemma subtree_pos k : (1 <= subtree k)%nat.
Proof. destruct k; cbn; lia. Qed.

Lemma weight_pos bound (e : Node (T := T) * Z) : (1 <= weight bound e)%nat.
Proof. apply subtree_pos. Qed.

Lemma queue_weight_extract bound (q r : list (Node (T := T) * Z)) e :
  pq_extract q = Some (e, r) ->
  queue_weight bound q = (weight bound e + queue_weight bound r)%nat.
Proof.
  intros Hx. unfold queue_weight.
  by rewrite (pq_extract_perm _ _ _ Hx).
Qed.

Lemma queue_weight_probe bound node st i :
  (queue_weight bound (pq (probe bound (node, st) i).2)
   <= queue_weight bound (pq st)
      + (if bool_decide (depth node <= bound)%Z
         then subtree (Z.to_nat (bound - depth node)%Z) else 0))%nat /\
  depth (probe bound (node, st) i).1 = depth node.
Proof.
  rewrite probe_eq. cbn zeta.
  destruct (map_index false (visited (self st)) (move (cube node) i)).1.
  - split; [|done]. cbn [snd pq]. case_bool_decide; lia.
  - case_bool_decide as Hcmp; (split; [|done]); cbn [snd pq].
    + case_bool_decide; lia.
    + rewrite bool_decide_true by lia.
      unfold pq_push, queue_weight. rewrite sum_list_with_app.
      cbn [sum_list_with]. unfold weight. cbn [fst depth]. lia.
Qed.

Lemma queue_weight_foldl bound (l : list Z) node st :
  (queue_weight bound (pq (foldl (probe bound) (node, st) l).2)
   <= queue_weight bound (pq st)
      + length l * (if bool_decide (depth node <= bound)%Z
                    then subtree (Z.to_nat (bound - depth node)%Z) else 0))%nat.
Proof.
  revert node st. induction l as [|i l IH]; intros node st; [cbn; lia|].
  cbn [foldl length].
  destruct (probe bound (node, st) i) as [node1 st1] eqn:Hp.
  pose proof (queue_weight_probe bound node st i) as [Hw Hd].
  rewrite Hp in Hw, Hd. cbn [fst snd] in Hw, Hd.
  specialize (IH node1 st1). rewrite Hd in IH. lia.
Qed.

Lemma loop_body_decreases bound st st' :
  loop_body bound st = Continue st' ->
  (queue_weight bound (pq st') < queue_weight bound (pq st))%nat.
Proof.
  intros Hbody.
  apply loop_body_continue in Hbody as (p & q & Hx & Hcase).
  rewrite (queue_weight_extract bound _ _ _ Hx).
  pose proof (weight_pos bound p) as Hpos.
  destruct Hcase as [[_ ->]|(_ & _ & ->)]; [cbn [pq]; lia|].
  pose proof (queue_weight_foldl bound move_indices
                (mkNode (cube p.1) (depth p.1 + 1) (estimate p.1))
                (visit_state st p q)) as Hw.
  cbn [depth pq visit_state] in Hw.
  change (length move_indices) with 18%nat in Hw.
  case_bool_decide as Hcmp; [|lia].
  unfold weight in *.
  replace (Z.to_nat (bound - depth p.1))
    with (S (Z.to_nat (bound - (depth p.1 + 1)))) in * by lia.
  cbn [subtree] in *. lia.
Qed.

Lemma IDAstar_loop_terminates fuel bound st :
  (queue_weight bound (pq st) < fuel)%nat ->
  is_Some (IDAstar_loop fuel bound st).
Proof.
  revert st. induction fuel as [|fuel IH]; intros st Hlt; [lia|].
  cbn [IDAstarSolver.IDAstar_loop].
  destruct (loop_body bound st) as [r st'|st'] eqn:Hbody; [by eexists|].
  apply IH. apply loop_body_decreases in Hbody. lia.
Qed.

(** Every call returns: a fuel that depends on the bound alone is enough,
    whatever the object holds. *)
Lemma IDAstar_terminates bound s :
  is_Some (IDAstar (2 + subtree (Z.to_nat bound)) bound s).
Proof.
  unfold IDAstarSolver.IDAstar.
  destruct (IDAstar_loop_terminates (2 + subtree (Z.to_nat bound)) bound
              (IDAstar_init s)) as [[r st] Hrun].
  - cbn. unfold weight. cbn. rewrite Z.sub_0_r. lia.
  - rewrite Hrun. by eexists.
Qed.

(** *** What a call reports *)

(** C3 (as the code has it). A call always returns. When it returns
    without having reached a solved cube, it reports the root cube and, as
    the next bound, the smaller of 100 and the smallest cost
    [depth + estimate] among the candidates pruned for exceeding the bound
    in that call: never more than 100, at most every pruned cost, and 100
    itself when nothing was pruned. Every pruned cost exceeds the bound. *)
Theorem next_bound_is_capped_minimum bound s :
  is_Some (IDAstar (2 + subtree (Z.to_nat bound)) bound s) /\
  forall fuel r s' tr,
    IDAstar fuel bound s = Some (r, s', tr) ->
    ~ reached_solved tr ->
    r.1 = rubiksCube s /\
    r.2 = foldr Z.min 100 (pruned_costs tr) /\
    r.2 <= 100 /\
    (forall c, c ∈ pruned_costs tr -> bound < c /\ r.2 <= c) /\
    (r.2 = 100 \/ r.2 ∈ pruned_costs tr) /\
    (pruned_costs tr = [] -> r.2 = 100).
Proof.
  split; [apply IDAstar_terminates|].
  intros fuel r s' tr Hrun Hno.
  apply IDAstar_outcome in Hrun
    as (_ & Hpr & _ & _ & _ & _ & _ & [[_ ->]|(n & m & tr0 & -> & _)]).
  - cbn [fst snd].
    destruct (foldr_min_spec 100 (pruned_costs tr)) as (H1 & H2 & H3).
    split; [done|]. split; [done|]. split; [done|].
    split; [|split; [done|]].
    + intros c Hc. split; [|by apply H2].
      apply list_elem_of_omap in Hc as (ev & Hev & Hc).
      destruct ev; simplify_eq. by apply Hpr.
    + by intros ->.
  - destruct Hno. exists n. by left.
Qed.

(** *** Where the nodes lie, when [invert] undoes [move] *)

Section Reach.
Variable root : T.

(** The contract of the cube: on every cube that moves can make of the
    root, [invert] undoes [move]. *)
Hypothesis round_trip :
  forall (c : T) (d : Z) (m : MOVE),
    reached_in move root d c -> m ∈ move_indices -> invert (move c m) m = c.

Lemma reached_in_root : reached_in move root 0 root.
Proof. by exists []. Qed.

Lemma reached_in_step (c : T) d i :
  i ∈ move_indices ->
  reached_in move root d c ->
  reached_in move root (d + 1) (move c i).
Proof.
  intros Hi (ms & Hlen & Hall & Hc). exists (ms ++ [i]).
  split; [rewrite length_app; cbn; lia|].
  split; [apply Forall_app; split; [done|by constructor]|].
  unfold apply_moves in *. by rewrite foldl_app, Hc.
Qed.

Lemma reach_inv_init s :
  rubiksCube s = root -> reach_inv move root (IDAstar_init s).
Proof.
  intros Hs. split; cbn; rewrite Hs.
  - intros e He. apply list_elem_of_singleton in He as ->. apply reached_in_root.
  - intros ev Hev. apply list_elem_of_singleton in Hev as ->. apply reached_in_root.
Qed.

Lemma reach_inv_probe bound node st i :
  i ∈ move_indices ->
  reach_inv move root st ->
  reached_in move root (depth node - 1) (cube node) ->
  reach_inv move root (probe bound (node, st) i).2 /\
  reached_in move root (depth (probe bound (node, st) i).1 - 1)
             (cube (probe bound (node, st) i).1).
Proof.
  intros Hi [Hq Hev] Hnode.
  assert (placed move root (mkNode (move (cube node) i) (depth node) 0)) as Hsucc.
  { unfold placed. cbn.
    replace (depth node) with (depth node - 1 + 1) by lia.
    by apply reached_in_step. }
  rewrite probe_eq. cbn zeta. rewrite (round_trip _ _ _ Hnode Hi).
  destruct (map_index false (visited (self st)) (move (cube node) i)).1.
  - split; [|done]. by split.
  - case_bool_decide; (split; [|done]); split; cbn; try done.
    + intros ev Hev'. apply elem_of_cons in Hev' as [->|Hev']; [done|by apply Hev].
    + intros e He. unfold pq_push in He.
      apply elem_of_app in He as [He|He]; [by apply Hq|].
      by apply list_elem_of_singleton in He as ->.
    + intros ev Hev'. apply elem_of_cons in Hev' as [->|Hev']; [done|by apply Hev].
Qed.

Lemma reach_inv_visit st p q :
  reach_inv move root st ->
  pq_extract (pq st) = Some (p, q) ->
  reach_inv move root (visit_state st p q).
Proof.
  intros [Hq Hev] Hx. split; cbn.
  - intros e He. apply Hq. by eapply pq_extract_rest.
  - intros ev Hev'. apply elem_of_cons in Hev' as [->|Hev']; [|by apply Hev].
    apply Hq. by eapply pq_extract_elem.
Qed.

Lemma reach_inv_step bound st st' :
  reach_inv move root st ->
  loop_body bound st = Continue st' ->
  reach_inv move root st'.
Proof.
  intros Hinv Hbody.
  apply loop_body_continue in Hbody as (p & q & Hx & Hcase).
  pose proof (reach_queue _ _ _ Hinv p (pq_extract_elem _ _ _ Hx)) as Hp.
  destruct Hcase as [[_ ->]|(_ & _ & ->)].
  - destruct Hinv as [Hq Hev]. split; cbn.
    + intros e He. apply Hq. by eapply pq_extract_rest.
    + intros ev Hev'. apply elem_of_cons in Hev' as [->|Hev']; [done|by apply Hev].
  - apply (foldl_probe_ind
             (fun a => reach_inv move root a.2 /\
                       reached_in move root (depth a.1 - 1) (cube a.1))).
    + split; [by apply reach_inv_visit|]. cbn.
      by replace (depth p.1 + 1 - 1) with (depth p.1) by lia.
    + intros [n1 st1] i Hi [Hr Hn]. by apply reach_inv_probe.
Qed.

(** Every node of the log lies as many moves from the root as its depth
    says. *)
Lemma IDAstar_placed fuel bound s r s' tr :
  rubiksCube s = root ->
  IDAstar fuel bound s = Some (r, s', tr) ->
  forall ev, ev ∈ tr -> placed move root (event_node ev).
Proof.
  intros Hroot. unfold IDAstarSolver.IDAstar.
  destruct (IDAstar_loop fuel bound (IDAstar_init s)) as [[r0 st']|] eqn:Hl; [|done].
  intros [= -> <- <-].
  destruct (IDAstar_loop_ind (reach_inv move root) bound
              (fun st st' => reach_inv_step bound st st')
              fuel (IDAstar_init s) r st' (reach_inv_init s Hroot) Hl)
    as (st0 & Hinv & Hret).
  apply loop_body_return in Hret as [(_ & _ & ->)|(p & q & Hx & _ & _ & _ & ->)].
  - by destruct Hinv.
  - pose proof (reach_queue _ _ _ Hinv p (pq_extract_elem _ _ _ Hx)) as Hp.
    destruct (reach_inv_visit _ _ _ Hinv Hx) as [_ Hev].
    intros ev Hev'. cbn in Hev'.
    apply elem_of_cons in Hev' as [->|Hev']; [done|by apply Hev].
Qed.

(** C4 (as the code has it). A call always returns. When it reaches a
    solved cube, it reports that cube together with the bound it was given.
    The depth of the solved node is the number of moves that lead from the
    root to it; it lies between 0 and the bound, and it is not what the
    call reports. *)
Theorem solved_call_reports_bound fuel bound s r s' tr n :
  rubiksCube s = root ->
  IDAstar fuel bound s = Some (r, s', tr) ->
  Solved n ∈ tr ->
  is_Some (IDAstar (2 + subtree (Z.to_nat bound)) bound s) /\
  r = (cube n, bound) /\
  isSolved (cube n) = true /\
  0 <= depth n <= Z.max 0 bound /\
  reached_in move root (depth n) (cube n).
Proof.
  intros Hroot Hrun Hn. split; [apply IDAstar_terminates|].
  pose proof (IDAstar_placed _ _ _ _ _ _ Hroot Hrun _ Hn) as Hplaced.
  apply IDAstar_outcome in Hrun
    as (_ & _ & _ & _ & _ & _ & _ & [[Hno _]|(n' & m & tr0 & -> & Huns & Hs & -> & Hd)]).
  - destruct Hno. by exists n.
  - apply elem_of_cons in Hn as [[= ->]|Hn].
    + split; [done|]. split; [done|]. split; [done|]. exact Hplaced.
    + apply elem_of_cons in Hn as [?|Hn]; [done|]. by destruct (Huns n).
Qed.

End Reach.

End Search.

End SearchFacts.
(** ** The driver *)

Module DriverFacts.
Import IDAstarSolver SearchSpec FrontierFacts SearchFacts.

Section Driver.
Context {T : Type} `{Countable T}.
Variable move : T -> MOVE -> T.
Variable invert : T -> MOVE -> T.
Variable isSolved : T -> bool.

Local Abbreviation IDAstar := (IDAstar move invert isSolved).
Local Abbreviation solve_loop := (solve_loop move invert isSolved).
Local Abbreviation path_loop := (path_loop invert).
Local Abbreviation solve := (solve move invert isSolved).

Implicit Types (s : Solver (T := T)) (p r : T * Z) (calls : list (Call (T := T))).

Lemma IDAstar_deterministic fuel fuel' bound s res res' :
  IDAstar fuel bound s = Some res ->
  IDAstar fuel' bound s = Some res' ->
  res = res'.
Proof.
  intros H1 H2.
  apply (IDAstar_mono _ _ _ _ (fuel `max` fuel')%nat) in H1; [|lia].
  apply (IDAstar_mono _ _ _ _ (fuel `max` fuel')%nat) in H2; [|lia].
  congruence.
Qed.

Lemma IDAstar_zero bound s : IDAstar 0 bound s = None.
Proof. done. Qed.

Lemma resetStructure_after fuel bound s r s' tr :
  IDAstar fuel bound s = Some (r, s', tr) ->
  resetStructure s' = resetStructure s.
Proof.
  intros Hrun. apply IDAstar_outcome in Hrun
    as (_ & _ & _ & _ & Hroot & _ & Hdb & _).
  unfold resetStructure. by rewrite Hroot, Hdb.
Qed.

Lemma resetStructure_idem s : resetStructure (resetStructure s) = resetStructure s.
Proof. done. Qed.

(** What a call reports when it does not report the bound it was given. *)
Lemma IDAstar_not_bound fuel bound s r s' tr :
  IDAstar fuel bound s = Some (r, s', tr) ->
  r.2 <> bound ->
  ~ reached_solved tr /\ r.1 = rubiksCube s.
Proof.
  intros Hrun Hne.
  apply IDAstar_outcome in Hrun
    as (_ & _ & _ & _ & _ & _ & _ & [[Hno ->]|(n & m & tr0 & _ & _ & _ & -> & _)]);
    done.
Qed.

(** Once the loop is entered, every pass makes the same call. If that call
    reports anything but its own bound, the loop never ends. *)
Lemma solve_loop_stuck callfuel p s0 :
  (forall res, IDAstar callfuel p.2 (resetStructure s0) = Some res -> res.1.1.2 <> p.2) ->
  forall fuel bound s calls,
    resetStructure s = resetStructure s0 ->
    bound <> p.2 ->
    (solve_loop fuel callfuel p bound s calls).1 = None.
Proof.
  intros Hcall fuel. induction fuel as [|fuel IH]; intros bound s calls Hs Hb; [done|].
  cbn [IDAstarSolver.solve_loop].
  rewrite bool_decide_true by done. rewrite Hs.
  destruct (IDAstar callfuel p.2 (resetStructure s0)) as [[[r s'] tr]|] eqn:Hrun; [|done].
  apply IH.
  - rewrite (resetStructure_after _ _ _ _ _ _ Hrun). apply resetStructure_idem.
  - apply (Hcall _ eq_refl).
Qed.

(** When the loop ends, it made no call, or one call that reported its own
    bound. *)
Lemma solve_loop_ends fuel callfuel p bound s calls b s' calls' :
  solve_loop fuel callfuel p bound s calls = (Some (b, s'), calls') ->
  (p.2 = bound /\ s' = s /\ calls' = calls) \/
  (p.2 <> bound /\
   exists r tr,
     IDAstar callfuel p.2 (resetStructure s) = Some (r, s', tr) /\
     r.2 = p.2 /\
     calls' = calls ++ [mkCall p.2 (resetStructure s)]).
Proof.
  destruct fuel as [|fuel]; [done|].
  cbn [IDAstarSolver.solve_loop]. case_bool_decide as Hb.
  - destruct (IDAstar callfuel p.2 (resetStructure s)) as [[[r s1] tr]|] eqn:Hrun; [|done].
    intros Hloop. right. split; [done|].
    destruct (decide (r.2 = p.2)) as [Heq|Hne].
    + destruct fuel as [|fuel]; [done|].
      cbn [IDAstarSolver.solve_loop] in Hloop.
      rewrite bool_decide_false in Hloop by (intros ?; congruence).
      simplify_eq. by exists r, tr.
    + exfalso. pose proof (solve_loop_stuck callfuel p s) as Hstuck.
      apply (f_equal fst) in Hloop. rewrite Hstuck in Hloop; [done| | |done].
      * intros res Hres. rewrite Hrun in Hres. by simplify_eq.
      * rewrite (resetStructure_after _ _ _ _ _ _ Hrun). apply resetStructure_idem.
  - intros [= <- <- <-]. left. split; [|done].
    destruct (decide (p.2 = bound)); [done|]. by destruct Hb.
Qed.

(** The calls the loop makes: each is entered on a reset object and with
    the bound [p.second]. *)
Lemma solve_loop_calls fuel callfuel p bound s calls :
  exists extra,
    (solve_loop fuel callfuel p bound s calls).2 = calls ++ extra /\
    Forall (fun c => call_bound c = p.2 /\
                     call_entry c = resetStructure (call_entry c)) extra.
Proof.
  revert bound s calls.
  induction fuel as [|fuel IH]; intros bound s calls.
  - exists []. by rewrite app_nil_r.
  - cbn [IDAstarSolver.solve_loop]. case_bool_decide as Hb.
    + assert (Forall (fun c : Call (T := T) =>
                        call_bound c = p.2 /\
                        call_entry c = resetStructure (call_entry c))
                [mkCall p.2 (resetStructure s)]) as Hone
        by (by constructor).
      destruct (IDAstar callfuel p.2 (resetStructure s)) as [[[r s1] tr]|].
      * destruct (IH r.2 s1 (calls ++ [mkCall p.2 (resetStructure s)]))
          as (extra & -> & Hall).
        exists (mkCall p.2 (resetStructure s) :: extra).
        split; [by rewrite <- app_assoc|]. by apply Forall_cons.
      * by eexists.
    + exists []. by rewrite app_nil_r.
Qed.

Lemma path_loop_at_root fuel s :
  path_loop (S fuel) (rubiksCube s) s = Some s.
Proof. cbn. by rewrite bool_decide_false by (intros Hne; by apply Hne). Qed.

(** The two ways [solve] returns: the first call reported the bound 1 and
    the path is read back from its solved cube; or it reported another
    number, one more call was made with that number as the bound and
    reported it back, and the result is the empty vector, the cube
    untouched. *)
Lemma solve_result fuel s ms s' calls :
  solve fuel s = (Some (ms, s'), calls) ->
  exists p s1 tr1,
    IDAstar fuel 1 s = Some (p, s1, tr1) /\
    ((p.2 = 1 /\ calls = [mkCall 1 s] /\
      exists s3, path_loop fuel p.1 s1 = Some s3 /\
                 ms = reverse (moves s3) /\
                 rubiksCube s' = p.1) \/
     (p.2 <> 1 /\
      exists r s2 tr2,
        IDAstar fuel p.2 (resetStructure s1) = Some (r, s2, tr2) /\
        r.2 = p.2 /\
        calls = [mkCall 1 s; mkCall p.2 (resetStructure s1)] /\
        ms = [] /\
        rubiksCube s' = rubiksCube s)).
Proof.
  unfold IDAstarSolver.solve.
  destruct (IDAstar fuel 1 s) as [[[p s1] tr1]|] eqn:Hrun; [|done].
  destruct (solve_loop fuel fuel p 1 s1 [mkCall 1 s]) as [[[b s2]|] calls2] eqn:Hloop;
    [|done].
  destruct (path_loop fuel p.1 s2) as [s3|] eqn:Hpath; [|done].
  intros [= <- <- <-]. exists p, s1, tr1. split; [done|].
  apply solve_loop_ends in Hloop
    as [(Hp & -> & ->)|(Hp & r & tr2 & Hrun2 & Hr & ->)].
  - left. split; [done|]. split; [done|]. by exists s3.
  - right. split; [done|]. exists r, s2, tr2.
    split; [done|]. split; [done|]. split; [done|].
    destruct (IDAstar_not_bound _ _ _ _ _ _ Hrun Hp) as [_ Hroot].
    pose proof (IDAstar_outcome _ _ _ _ _ _ _ _ _ Hrun)
      as (_ & _ & _ & _ & Hroot1 & _).
    pose proof (IDAstar_outcome _ _ _ _ _ _ _ _ _ Hrun2)
      as (_ & _ & _ & _ & Hroot2 & Hmoves2 & _).
    cbn in Hroot2, Hmoves2.
    destruct fuel as [|fuel]; [done|].
    assert (p.1 = rubiksCube s2) as Hat by congruence.
    rewrite Hat, path_loop_at_root in Hpath. simplify_eq.
    cbn. rewrite Hmoves2. split; [done|]. congruence.
Qed.

(** If the first call reports a number other than 1 and the call with that
    number as its bound reports yet another, [solve] never returns. *)
Lemma solve_diverges f0 f1 s p s1 tr1 r s2 tr2 :
  IDAstar f0 1 s = Some (p, s1, tr1) ->
  IDAstar f1 p.2 (resetStructure s) = Some (r, s2, tr2) ->
  p.2 <> 1 ->
  r.2 <> p.2 ->
  forall fuel, (solve fuel s).1 = None.
Proof.
  intros Hrun1 Hrun2 Hp Hr fuel. unfold IDAstarSolver.solve.
  destruct (IDAstar fuel 1 s) as [[[p' s1'] tr1']|] eqn:Hrun; [|done].
  pose proof (IDAstar_deterministic _ _ _ _ _ _ Hrun Hrun1) as Heq.
  injection Heq as -> -> ->.
  pose proof (solve_loop_stuck fuel p s) as Hstuck.
  specialize (Hstuck) with (fuel := fuel) (bound := 1) (s := s1)
                           (calls := [mkCall 1 s]).
  destruct (solve_loop fuel fuel p 1 s1 [mkCall 1 s]) as [[[b s3]|] calls2];
    [|done].
  cbn in Hstuck. exfalso. enough (Some (b, s3) = None) by done.
  apply Hstuck.
  - intros res Hres.
    pose proof (IDAstar_deterministic _ _ _ _ _ _ Hres Hrun2) as ->. done.
  - by rewrite (resetStructure_after _ _ _ _ _ _ Hrun).
  - intros ?. by apply Hp.
Qed.

(** The bounds of the calls of one run of [solve]: 1 for the first call,
    and for every later call the same number, which is at least 1. So the
    bound never decreases from one call to the next. *)
Lemma call_bounds_nondecreasing fuel s :
  exists b rest,
    1 <= b /\
    (solve fuel s).2 = mkCall 1 s :: rest /\
    Forall (fun c => call_bound c = b) rest.
Proof.
  unfold IDAstarSolver.solve.
  destruct (IDAstar fuel 1 s) as [[[p s1] tr1]|] eqn:Hrun.
  - exists p.2.
    destruct (solve_loop_calls fuel fuel p 1 s1 [mkCall 1 s]) as (extra & Hx & Hall).
    destruct (solve_loop fuel fuel p 1 s1 [mkCall 1 s]) as [res calls2].
    cbn in Hx. subst calls2. exists extra. split; [|split].
    + apply IDAstar_outcome in Hrun
        as (_ & Hpr & _ & _ & _ & _ & _ & [[_ ->]|(n & m & tr0 & _ & _ & _ & -> & _)]);
        [|done].
      cbn. destruct (foldr_min_spec 100 (pruned_costs tr1)) as (_ & _ & [->|Hin]); [lia|].
      apply list_elem_of_omap in Hin as (ev & Hev & Hc).
      destruct ev; simplify_eq. specialize (Hpr _ Hev). lia.
    + destruct res as [[b s2]|]; [|done].
      by destruct (path_loop fuel p.1 s2).
    + eapply Forall_impl; [exact Hall|]. by intros c [Hc _].
  - exists 1, []. by repeat split.
Qed.

(** On a solved cube that is not marked visited, with no moves left over
    in the object, [solve] makes one call and returns the empty vector. *)
Lemma solve_solved fuel s :
  isSolved (rubiksCube s) = true ->
  visited s !! rubiksCube s <> Some true ->
  moves s = [] ->
  exists s',
    solve (S fuel) s = (Some ([], s'), [mkCall 1 s]) /\
    rubiksCube s' = rubiksCube s.
Proof.
  intros Hsolved Hfresh Hmoves.
  assert (exists s1 tr1, IDAstar (S fuel) 1 s = Some ((rubiksCube s, 1), s1, tr1) /\
                         rubiksCube s1 = rubiksCube s /\ moves s1 = []) as Hcall.
  { unfold IDAstarSolver.IDAstar, IDAstar_init.
    cbn [IDAstarSolver.IDAstar_loop]. unfold IDAstarSolver.loop_body.
    cbn [pq pq_push app pq_extract fst snd cube self].
    pose proof (map_index_fst false (visited s) (rubiksCube s)) as Hseen.
    destruct (map_index false (visited s) (rubiksCube s)) as [seen vis].
    cbn [fst] in Hseen.
    destruct seen.
    - destruct (visited s !! rubiksCube s) as [[]|]; try done.
    - rewrite Hsolved. eexists _, _. split; [reflexivity|]. by split. }
  destruct Hcall as (s1 & tr1 & Hrun & Hroot & Hm).
  unfold IDAstarSolver.solve. rewrite Hrun.
  cbn [IDAstarSolver.solve_loop snd fst].
  rewrite bool_decide_false by (intros Hne; by apply Hne).
  rewrite <- Hroot, path_loop_at_root.
  eexists. split.
  - cbn. rewrite Hm. reflexivity.
  - reflexivity.
Qed.

(** Every call after the first repeats the number the first call
    reported, on the reset object. *)
Lemma later_calls_repeat f0 s p s1 tr1 fuel :
  IDAstar f0 1 s = Some (p, s1, tr1) ->
  exists rest,
    (solve fuel s).2 = mkCall 1 s :: rest /\
    Forall (fun c => call_bound c = p.2) rest.
Proof.
  intros Hrun0. unfold IDAstarSolver.solve.
  destruct (IDAstar fuel 1 s) as [[[p' s1'] tr1']|] eqn:Hrun; [|by exists []].
  pose proof (IDAstar_deterministic _ _ _ _ _ _ Hrun Hrun0) as Heq.
  injection Heq as -> -> ->.
  destruct (solve_loop_calls fuel fuel p 1 s1 [mkCall 1 s]) as (extra & Hx & Hall).
  destruct (solve_loop fuel fuel p 1 s1 [mkCall 1 s]) as [res calls2].
  cbn in Hx. subst calls2. exists extra. split.
  - destruct res as [[b s2]|]; [|done].
    by destruct (path_loop fuel p.1 s2).
  - eapply Forall_impl; [exact Hall|]. by intros c [Hc _].
Qed.

(** C8 (as the code has it). Within one call no cube passes the visited
    check twice, and a cube marked visited when the call was entered never
    passes it. In every run of [solve], finished or not, the first call is
    entered on the object as [solve] found it, and every later call is
    entered right after [resetStructure]: its [visited] and [move_done] are
    empty. So all calls start from empty maps when [solve] is entered with
    empty maps, as on a newly constructed object. *)
Theorem visited_once_and_reset :
  (forall fuel bound s r s' tr,
     IDAstar fuel bound s = Some (r, s', tr) ->
     NoDup (visited_cubes tr) /\
     forall c, c ∈ visited_cubes tr ->
       visited s !! c <> Some true /\ visited s' !! c = Some true) /\
  (forall fuel s,
     exists rest,
       (solve fuel s).2 = mkCall 1 s :: rest /\
       Forall (fun c => visited (call_entry c) = ∅ /\
                        move_done (call_entry c) = ∅) rest) /\
  (forall fuel s,
     visited s = ∅ -> move_done s = ∅ ->
     Forall (fun c => visited (call_entry c) = ∅ /\
                      move_done (call_entry c) = ∅) (solve fuel s).2).
Proof.
  assert (forall fuel s,
     exists rest,
       (solve fuel s).2 = mkCall 1 s :: rest /\
       Forall (fun c : Call (T := T) => visited (call_entry c) = ∅ /\
                        move_done (call_entry c) = ∅) rest) as Hcalls.
  { intros fuel s. unfold IDAstarSolver.solve.
    destruct (IDAstar fuel 1 s) as [[[p s1] tr1]|]; [|by exists []].
    destruct (solve_loop_calls fuel fuel p 1 s1 [mkCall 1 s]) as (extra & Hx & Hall).
    destruct (solve_loop fuel fuel p 1 s1 [mkCall 1 s]) as [res calls2].
    cbn in Hx. subst calls2. exists extra. split.
    - destruct res as [[b s2]|]; [|done].
      by destruct (path_loop fuel p.1 s2).
    - eapply Forall_impl; [exact Hall|].
      intros c [_ Hc]. rewrite Hc. done. }
  split; [|split; [exact Hcalls|]].
  - intros fuel bound s r s' tr Hrun.
    apply IDAstar_outcome in Hrun as (_ & _ & Hnd & Hm & _).
    split; [done|]. intros c Hc. by apply Hm.
  - intros fuel s Hv Hm. destruct (Hcalls fuel s) as (rest & -> & Hrest).
    by apply Forall_cons.
Qed.

(** *** When [invert] undoes [move] *)

Section Contract.
Variable root : T.

Hypothesis round_trip :
  forall (c : T) (d : Z) (m : MOVE),
    reached_in move root d c -> m ∈ move_indices -> invert (move c m) m = c.

(** A call that meets no solved cube within its bound does not report
    one. *)
Lemma IDAstar_unsolved fuel bound s r s' tr :
  rubiksCube s = root ->
  (forall d c, 0 <= d <= Z.max 0 bound -> reached_in move root d c ->
               isSolved c = false) ->
  IDAstar fuel bound s = Some (r, s', tr) ->
  ~ reached_solved tr /\
  r = (root, foldr Z.min 100 (pruned_costs tr)) /\
  (forall c, c ∈ pruned_costs tr -> bound < c).
Proof.
  intros Hroot Hfar Hrun.
  pose proof (IDAstar_placed move invert isSolved root round_trip
                _ _ _ _ _ _ Hroot Hrun) as Hplaced.
  apply IDAstar_outcome in Hrun
    as (_ & Hpr & _ & _ & _ & _ & _ & [[Hno ->]|(n & m & tr0 & -> & _ & Hs & _ & Hd)]).
  - split; [done|]. split; [by rewrite Hroot|].
    intros c Hc. apply list_elem_of_omap in Hc as (ev & Hev & Hc).
    destruct ev; simplify_eq. by apply Hpr.
  - specialize (Hplaced (Solved n)). cbn in Hplaced.
    rewrite (Hfar (depth n) (cube n)) in Hs; [done|done|].
    apply Hplaced. by left.
Qed.

Lemma reached_within_one d c :
  0 <= d <= 1 -> reached_in move root d c ->
  c = root \/ exists m, m ∈ move_indices /\ c = move root m.
Proof.
  intros Hd (ms & Hlen & Hall & <-).
  destruct ms as [|m [|m' ms]]; cbn in Hlen; [by left | | lia].
  right. exists m. split; [|done]. by apply Forall_cons in Hall as [? _].
Qed.

(** The first call on a cube that no single move solves: it reports the
    root and a number between 2 and 100. *)
Lemma first_call_beyond_one_move fuel s p s1 tr1 :
  rubiksCube s = root ->
  isSolved root = false ->
  (forall m, m ∈ move_indices -> isSolved (move root m) = false) ->
  IDAstar fuel 1 s = Some (p, s1, tr1) ->
  p.1 = root /\ 2 <= p.2 <= 100.
Proof.
  intros Hroot H0 H1 Hrun.
  destruct (IDAstar_unsolved fuel 1 s p s1 tr1 Hroot) as (_ & -> & Hpr); [|done|].
  - intros d c Hd Hc.
    destruct (reached_within_one d c) as [->|(m & Hm & ->)]; [lia|done|done|].
    by apply H1.
  - split; [done|]. cbn.
    destruct (foldr_min_spec 100 (pruned_costs tr1)) as (Hle & _ & [->|Hin]); [lia|].
    specialize (Hpr _ Hin). lia.
Qed.

(** On a cube that is neither solved nor one move from solved, [solve]
    returns, if it returns at all, the empty vector and leaves the cube as
    it was: it never returns moves that solve it. *)
Lemma solve_beyond_one_move fuel s ms s' calls :
  rubiksCube s = root ->
  isSolved root = false ->
  (forall m, m ∈ move_indices -> isSolved (move root m) = false) ->
  solve fuel s = (Some (ms, s'), calls) ->
  ms = [] /\ rubiksCube s' = root /\ isSolved (apply_moves move root ms) = false.
Proof.
  intros Hroot H0 H1 Hsolve.
  apply solve_result in Hsolve as (p & s1 & tr1 & Hrun & Hcase).
  destruct (first_call_beyond_one_move _ _ _ _ _ Hroot H0 H1 Hrun) as [_ Hp].
  destruct Hcase as [(Hp1 & _)|(_ & r & s2 & tr2 & _ & _ & _ & -> & Hr)]; [lia|].
  split; [done|]. split; [congruence|done].
Qed.

(** On a cube that no two moves solve, if the first call reports 2 (it
    pruned a candidate two moves from the root), [solve] never returns:
    the call with bound 2 reports a number above 2, and the loop repeats
    it. *)
Lemma solve_beyond_two_moves f0 s p s1 tr1 :
  rubiksCube s = root ->
  (forall d c, 0 <= d <= 2 -> reached_in move root d c -> isSolved c = false) ->
  IDAstar f0 1 s = Some (p, s1, tr1) ->
  p.2 = 2 ->
  forall fuel, (solve fuel s).1 = None.
Proof.
  intros Hroot Hfar Hrun Hp.
  destruct (IDAstar_terminates move invert isSolved 2 (resetStructure s))
    as [[[r s2] tr2] Hrun2].
  destruct (IDAstar_unsolved _ _ _ _ _ _ (Hroot : rubiksCube (resetStructure s) = root)
              (fun d c (Hd : 0 <= d <= Z.max 0 2) => Hfar d c ltac:(lia)) Hrun2)
    as (_ & Hr & Hpr).
  rewrite <- Hp in Hrun2.
  apply (solve_diverges _ _ _ _ _ _ _ _ _ Hrun Hrun2); [lia|].
  rewrite Hr, Hp. cbn.
  destruct (foldr_min_spec 100 (pruned_costs tr2)) as (_ & _ & [->|Hin]); [lia|].
  specialize (Hpr _ Hin). lia.
Qed.

(** C5 (as the code has it). [solve] has one kind of result, a vector of
    moves. On a cube from which no sequence of moves reaches a solved one,
    it returns, if it returns at all, the empty vector (what it returns
    for a solved cube) with the cube unchanged; and it returns only after
    exactly two calls, the first with bound 1 and the second, on the reset
    object, with bound 100, both of which emptied the queue without pruning
    anything below 100. *)
Theorem unsolvable_returns_empty fuel s ms s' calls :
  rubiksCube s = root ->
  (forall d c, reached_in move root d c -> isSolved c = false) ->
  solve fuel s = (Some (ms, s'), calls) ->
  ms = [] /\
  rubiksCube s' = root /\
  calls = [mkCall 1 s; mkCall 100 (resetStructure s)].
Proof.
  intros Hroot Hfar Hsolve.
  apply solve_result in Hsolve as (p & s1 & tr1 & Hrun & Hcase).
  destruct (IDAstar_unsolved fuel 1 s p s1 tr1 Hroot) as (_ & Hp & Hpr);
    [by intros d c _; apply Hfar | done |].
  assert (p.2 <> 1) as Hne.
  { rewrite Hp. cbn.
    destruct (foldr_min_spec 100 (pruned_costs tr1)) as (_ & _ & [->|Hin]); [lia|].
    specialize (Hpr _ Hin). lia. }
  destruct Hcase as [(Hp1 & _)|(_ & r & s2 & tr2 & Hrun2 & Hr & -> & -> & Hs')]; [done|].
  split; [done|]. split; [congruence|].
  pose proof (IDAstar_outcome _ _ _ _ _ _ _ _ _ Hrun)
    as (_ & _ & _ & _ & Hroot1 & _).
  destruct (IDAstar_unsolved fuel p.2 (resetStructure s1) r s2 tr2)
    as (_ & Hr2 & Hpr2); [cbn; congruence | by intros d c _; apply Hfar | done |].
  rewrite (resetStructure_after _ _ _ _ _ _ Hrun). do 3 f_equal.
  rewrite <- Hr, Hr2. cbn.
  destruct (foldr_min_spec 100 (pruned_costs tr2)) as (_ & _ & [->|Hin]); [done|].
  specialize (Hpr2 _ Hin). rewrite Hr2 in Hr. cbn in Hr. lia.
Qed.

End Contract.

End Driver.

End DriverFacts.
(** ** The order of the search and the recorded moves *)

Module OrderFacts.
Import IDAstarSolver SearchSpec SearchOrder FrontierFacts SearchFacts DriverFacts.

Section Order.
Context {T : Type} `{Countable T}.
Variable move : T -> MOVE -> T.
Variable invert : T -> MOVE -> T.
Variable isSolved : T -> bool.

Local Abbreviation probe := (probe move invert).
Local Abbreviation loop_body := (loop_body move invert isSolved).
Local Abbreviation IDAstar_loop := (IDAstar_loop move invert isSolved).
Local Abbreviation IDAstar := (IDAstar move invert isSolved).
Local Abbreviation covered := (covered (T := T)).
Local Abbreviation probed := (probed move).
Local Abbreviation parent_link := (parent_link move invert).
Local Abbreviation order_inv := (order_inv move invert).

Implicit Types (s : Solver (T := T)) (st : Search (T := T)) (n cur : Node (T := T))
  (tr : list (event (T := T))) (e p : Node (T := T) * Z) (c : T).

(** *** Clean objects *)

Lemma clean_construct (db : CornerPatternDatabase (T := T)) c :
  clean (construct db c).
Proof. intros c'. cbn. by rewrite lookup_empty. Qed.

Lemma clean_resetStructure s : clean (resetStructure s).
Proof. intros c'. cbn. by rewrite lookup_empty. Qed.

(** *** Reading visits off the log *)

Lemma elem_visited_cubes tr c :
  c ∈ visited_cubes tr <-> exists n m, Visit n m ∈ tr /\ cube n = c.
Proof.
  unfold visited_cubes. rewrite list_elem_of_omap. split.
  - intros (ev & Hev & Hc). destruct ev; simplify_eq. by eexists _, _.
  - intros (n & m & Hin & <-). by exists (Visit n m).
Qed.

Lemma visit_unique tr n m n' m' :
  NoDup (visited_cubes tr) ->
  Visit n m ∈ tr -> Visit n' m' ∈ tr -> cube n = cube n' ->
  n = n' /\ m = m'.
Proof.
  induction tr as [|ev tr IH]; intros Hnd H1 H2 Hc.
  - by apply elem_of_nil in H1.
  - apply elem_of_cons in H1 as [H1|H1]; apply elem_of_cons in H2 as [H2|H2].
    + by simplify_eq.
    + subst ev. cbn in Hnd. apply NoDup_cons in Hnd as [Hnot _].
      destruct Hnot. apply elem_visited_cubes. by exists n', m'.
    + subst ev. cbn in Hnd. apply NoDup_cons in Hnd as [Hnot _].
      destruct Hnot. apply elem_visited_cubes. by exists n, m.
    + apply IH; try done.
      destruct ev; cbn in Hnd; try done. by apply NoDup_cons in Hnd as [_ ?].
Qed.

Lemma visited_at_mono tr tr' j j' c :
  (forall n m, Visit n m ∈ tr -> Visit n m ∈ tr') -> j <= j' ->
  visited_at tr j c -> visited_at tr' j' c.
Proof.
  intros Htr Hj (n & m & Hin & Hc & Hd). exists n, m.
  split; [by apply Htr|]. split; [done | lia].
Qed.

Lemma covered_step st st' j c :
  (forall n m, Visit n m ∈ trace st -> Visit n m ∈ trace st') ->
  (forall e, e ∈ pq st ->
     e ∈ pq st' \/ visited_at (trace st') (depth e.1) (cube e.1)) ->
  covered st j c -> covered st' j c.
Proof.
  intros Htr Hq [Hv|(e & He & Hc & Hd)].
  - left. by eapply visited_at_mono.
  - destruct (Hq e He) as [He'|Hv].
    + right. by exists e.
    + left. rewrite <- Hc. eapply visited_at_mono; [| |exact Hv]; [done|lia].
Qed.

Lemma probed_step bound st st' n i :
  (forall n m, Visit n m ∈ trace st -> Visit n m ∈ trace st') ->
  (forall n, Prune n ∈ trace st -> Prune n ∈ trace st') ->
  (forall e, e ∈ pq st ->
     e ∈ pq st' \/ visited_at (trace st') (depth e.1) (cube e.1)) ->
  probed bound st n i -> probed bound st' n i.
Proof.
  intros Htr Hpr Hq [Hin Hout]. split.
  - intros Hd. by eapply covered_step; [| |apply Hin].
  - intros Hd. destruct (Hout Hd) as [Hv|Hp].
    + left. apply elem_visited_cubes in Hv as (n' & m' & Hv & Hc).
      apply elem_visited_cubes. exists n', m'. split; [by apply Htr | done].
    + right. by apply Hpr.
Qed.

Lemma parent_link_mono root tr tr' n m :
  (forall n m, Visit n m ∈ tr -> Visit n m ∈ tr') ->
  parent_link root tr n m -> parent_link root tr' n m.
Proof.
  intros Htr [Hroot|(Hd & Hm & n' & m' & Hin & Hrest)]; [by left|].
  right. split; [done|]. split; [done|]. exists n', m'.
  split; [by apply Htr | done].
Qed.

(** *** One move of the [for] loop, by cases *)

Lemma probe_shape bound node st i :
  let c' := move (cube node) i in
  let res := probe bound (node, st) i in
  cube res.1 = invert c' i /\
  depth res.1 = depth node /\
  move_done (self res.2) = move_done (self st) /\
  (forall c, visited (self res.2) !! c = Some true <->
             visited (self st) !! c = Some true) /\
  ((visited (self st) !! c' = Some true /\
    trace res.2 = trace st /\ pq res.2 = pq st) \/
   (visited (self st) !! c' <> Some true /\ bound < depth node /\
    trace res.2 = Prune (mkNode c' (depth node) 0) :: trace st /\
    pq res.2 = pq st) \/
   (visited (self st) !! c' <> Some true /\ depth node <= bound /\
    trace res.2 = Push (mkNode c' (depth node) 0) i :: trace st /\
    pq res.2 = pq st ++ [(mkNode c' (depth node) 0, i)])).
Proof.
  cbn zeta. rewrite probe_eq. cbn zeta.
  pose proof (map_index_fst false (visited (self st)) (move (cube node) i)) as Hseen.
  pose proof (map_index_true (visited (self st)) (move (cube node) i)) as Hvis.
  destruct (map_index false (visited (self st)) (move (cube node) i)) as [seen vis].
  cbn [fst snd] in *.
  assert (seen = true <-> visited (self st) !! move (cube node) i = Some true) as Hs.
  { rewrite Hseen. destruct (visited (self st) !! move (cube node) i) as [[]|]; cbn;
      split; intros; simplify_eq; done. }
  destruct seen.
  - cbn. repeat split; try apply Hvis. left. split; [by apply Hs | done].
  - assert (visited (self st) !! move (cube node) i <> Some true) as Hnew.
    { intros Hx. by apply Hs in Hx. }
    case_bool_decide as Hcmp; cbn; repeat split; try apply Hvis.
    + right. left. repeat split; [done | lia].
    + right. right. repeat split; [done | lia].
Qed.

(** *** Every pruned candidate lies one level past the bound *)

Lemma prune_inv_probe bound node st i :
  1 <= depth node <= Z.max 0 bound + 1 ->
  prune_inv bound st ->
  prune_inv bound (probe bound (node, st) i).2.
Proof.
  intros Hd Hpr n Hin.
  pose proof (probe_shape bound node st i) as Hshape. cbn zeta in Hshape.
  destruct Hshape
    as (_ & _ & _ & _ & [(_ & Ht & _)|[(_ & _ & Ht & _)|(_ & _ & Ht & _)]]);
    rewrite Ht in Hin.
  - by apply Hpr.
  - apply elem_of_cons in Hin as [[= ->]|Hin]; [by cbn | by apply Hpr].
  - apply elem_of_cons in Hin as [?|Hin]; [done | by apply Hpr].
Qed.

Lemma prune_inv_step s bound st st' :
  search_inv s bound st /\ prune_inv bound st ->
  loop_body bound st = Continue st' ->
  search_inv s bound st' /\ prune_inv bound st'.
Proof.
  intros [Hsearch Hpr] Hbody. split; [by eapply search_inv_step|].
  apply loop_body_continue in Hbody as (p & q & Hx & Hcase). cbn zeta in Hcase.
  destruct Hcase as [[_ ->]|(_ & _ & ->)].
  - intros n Hin. apply elem_of_cons in Hin as [?|Hin]; [done | by apply Hpr].
  - destruct (inv_queue _ _ _ Hsearch p (pq_extract_elem _ _ _ Hx)) as [_ Hd].
    apply (foldl_probe_ind move invert
             (fun a => prune_inv bound a.2 /\ depth a.1 = depth p.1 + 1)).
    + split; [|done]. intros n Hin.
      apply elem_of_cons in Hin as [?|Hin]; [done | by apply Hpr].
    + intros [node st1] i _ [Hpr1 Hd1]. cbn [fst snd] in *. split.
      * apply prune_inv_probe; [lia | done].
      * pose proof (probe_shape bound node st1 i) as Hshape. cbn zeta in Hshape.
        destruct Hshape as (_ & -> & _). done.
Qed.

Lemma foldr_min_const (v : Z) (l : list Z) :
  (forall x : Z, x ∈ l -> x = v) ->
  foldr Z.min 100 l = if decide (l = []) then 100 else Z.min 100 v.
Proof.
  induction l as [|x l IH]; intros Hall; [done|].
  cbn [foldr]. rewrite IH by (intros x' Hx'; apply Hall; by right).
  rewrite (Hall x) by by left.
  destruct (decide (v :: l = [])) as [?|_]; [done|].
  destruct (decide (l = [])); lia.
Qed.

(** The candidates a call prunes all cost one more than the bound (one,
    when the bound is negative). *)
Lemma pruned_cost_exact fuel bound s r s' tr :
  IDAstar fuel bound s = Some (r, s', tr) ->
  forall x : Z, x ∈ pruned_costs tr -> x = Z.max 0 bound + 1.
Proof.
  unfold IDAstarSolver.IDAstar.
  destruct (IDAstar_loop fuel bound (IDAstar_init s)) as [[r0 st']|] eqn:Hl; [|done].
  intros [= -> <- <-].
  destruct (IDAstar_loop_ind move invert isSolved
              (fun st => search_inv s bound st /\ prune_inv bound st) bound
              (prune_inv_step s bound) fuel (IDAstar_init s) r st') as (st0 & [Hsearch Hpr] & Hret);
    [|done|].
  { split; [apply search_inv_init|].
    intros n Hin. cbn in Hin. by apply list_elem_of_singleton in Hin. }
  assert (forall n, Prune n ∈ trace st' -> Prune n ∈ trace st0) as Hsame.
  { apply loop_body_return in Hret as [(_ & _ & ->)|(p & q & _ & _ & _ & _ & ->)];
      [done|].
    intros n Hin. cbn in Hin.
    apply elem_of_cons in Hin as [?|Hin]; [done|].
    by apply elem_of_cons in Hin as [?|Hin]. }
  intros x Hx. apply list_elem_of_omap in Hx as (ev & Hev & Hx).
  destruct ev; simplify_eq. apply Hsame in Hev.
  destruct (Hpr _ Hev) as [He Hd].
  pose proof (inv_pruned _ _ _ Hsearch _ Hev) as Hb.
  unfold cost in *. lia.
Qed.

(** *** The invariant, on a clean object and under the contract *)

Section Invariant.
Variable root : T.
Variable s0 : Solver (T := T).
Variable bound : Z.

Hypothesis round_trip :
  forall (c : T) (d : Z) (m : MOVE),
    reached_in move root d c -> m ∈ move_indices -> invert (move c m) m = c.

Local Abbreviation searching := (searching move invert isSolved s0 root bound).
Local Abbreviation expanding := (expanding move invert isSolved s0 root bound).

Lemma searching_init :
  clean s0 -> rubiksCube s0 = root -> searching (IDAstar_init s0).
Proof.
  intros Hclean Hroot. split.
  - apply search_inv_init.
  - by apply reach_inv_init.
  - intros n m Hin. cbn in Hin. by apply list_elem_of_singleton in Hin.
  - intros n Hin. cbn in Hin. by apply list_elem_of_singleton in Hin.
  - split; cbn.
    + intros c Hc. by destruct (Hclean c).
    + intros n m Hin. by apply list_elem_of_singleton in Hin.
    + intros n m e Hin. by apply list_elem_of_singleton in Hin.
    + intros n m i Hin. by apply list_elem_of_singleton in Hin.
    + right. exists (mkNode (rubiksCube s0) 0 0, 0). cbn.
      split; [by left|]. by rewrite Hroot.
    + intros n m Hin. by apply list_elem_of_singleton in Hin.
    + intros n m Hin. by apply list_elem_of_singleton in Hin.
    + intros n m Hin. by apply list_elem_of_singleton in Hin.
    + intros e He. apply list_elem_of_singleton in He as ->. left. by rewrite Hroot.
Qed.

(** An entry that leaves the queue is visited, then or earlier, no deeper
    than it was queued. *)
Lemma popped_is_visited st p q tr' :
  search_inv s0 bound st ->
  order_inv root bound (fun _ _ => True) st ->
  pq_extract (pq st) = Some (p, q) ->
  (forall n m, Visit n m ∈ trace st -> Visit n m ∈ tr') ->
  ((map_index false (visited (self st)) (cube p.1)).1 = true \/
   Visit p.1 p.2 ∈ tr') ->
  forall e, e ∈ pq st -> e ∈ q \/ visited_at tr' (depth e.1) (cube e.1).
Proof.
  intros Hsearch Hord Hx Htr Hcase e He.
  rewrite (pq_extract_perm _ _ _ Hx) in He.
  apply elem_of_cons in He as [->|He]; [|by left]. right.
  destruct Hcase as [Hseen|Hvisit].
  - rewrite map_index_fst in Hseen.
    assert (visited (self st) !! cube p.1 = Some true) as Hmark.
    { destruct (visited (self st) !! cube p.1) as [[]|]; by simplify_eq. }
    apply (ord_marks _ _ _ _ _ _ Hord) in Hmark.
    apply elem_visited_cubes in Hmark as (n & m & Hin & Hc).
    exists n, m. split; [by apply Htr|]. split; [done|].
    eapply (ord_before _ _ _ _ _ _ Hord); [exact Hin|].
    by eapply pq_extract_elem.
  - exists p.1, p.2. split; [done|]. split; [done | lia].
Qed.

Lemma searching_skip st p q :
  searching st ->
  pq_extract (pq st) = Some (p, q) ->
  (map_index false (visited (self st)) (cube p.1)).1 = true ->
  searching (mkSearch q (next_bound st)
               (set_visited (self st)
                  (map_index false (visited (self st)) (cube p.1)).2)
               (Skip p.1 :: trace st)).
Proof.
  intros [Hsearch Hreach Huns Hprune Hord] Hx Hseen.
  assert (loop_body bound st =
          Continue (mkSearch q (next_bound st)
                      (set_visited (self st)
                         (map_index false (visited (self st)) (cube p.1)).2)
                      (Skip p.1 :: trace st))) as Hbody.
  { unfold IDAstarSolver.loop_body. rewrite Hx.
    destruct (map_index false (visited (self st)) (cube p.1)) as [seen vis].
    cbn in Hseen. by subst seen. }
  assert (forall n m, Visit n m ∈ trace st -> Visit n m ∈ Skip p.1 :: trace st)
    as Htr by (intros; by right).
  assert (forall n m, Visit n m ∈ Skip p.1 :: trace st -> Visit n m ∈ trace st)
    as Htr'.
  { intros n m Hin. by apply elem_of_cons in Hin as [?|Hin]. }
  pose proof (popped_is_visited st p q (Skip p.1 :: trace st)
                Hsearch Hord Hx Htr (or_introl Hseen)) as Hq.
  split.
  - by eapply search_inv_step.
  - by eapply reach_inv_step.
  - intros n m Hin. by eapply Huns, Htr'.
  - intros n Hin. apply elem_of_cons in Hin as [?|Hin]; [done|]. by apply Hprune.
  - destruct Hord as [Hmarks Hdepth Hbefore Hprobed Hroot Honce Hdone Hvl Hql].
    split; cbn [self trace pq visited move_done set_visited].
    + intros c Hc. apply map_index_true in Hc. by apply Hmarks.
    + intros n m Hin. by eapply Hdepth, Htr'.
    + intros n m e Hin He. eapply Hbefore; [by apply Htr'|].
      by eapply pq_extract_rest.
    + intros n m i Hin Hi _.
      eapply (probed_step bound st); try done.
      * intros n1 Hn1. by right.
      * by eapply Hprobed; [apply Htr'| |].
    + by eapply (covered_step st).
    + intros n m Hin. by eapply Honce, Htr'.
    + intros n m Hin. by eapply Hdone, Htr'.
    + intros n m Hin. eapply parent_link_mono; [exact Htr|]. by eapply Hvl, Htr'.
    + intros e He. eapply parent_link_mono; [exact Htr|].
      apply Hql. by eapply pq_extract_rest.
Qed.

(** Passing the visited check: what the log and the maps record about
    order and moves still holds, with nothing yet known about the moves
    from the node just visited. *)
Lemma order_inv_visit st p q :
  searching st ->
  pq_extract (pq st) = Some (p, q) ->
  (map_index false (visited (self st)) (cube p.1)).1 = false ->
  order_inv root bound (fun n i => n <> p.1 \/ i ∈ @nil Z) (visit_state st p q).
Proof.
  intros [Hsearch Hreach Huns Hprune Hord] Hx Hseen.
  pose proof (pq_extract_elem _ _ _ Hx) as Hp.
  destruct (inv_queue _ _ _ Hsearch p Hp) as [Hest Hdep].
  assert (visited (self st) !! cube p.1 <> Some true) as Hnew.
  { intros Hm. rewrite map_index_fst, Hm in Hseen. done. }
  assert (forall n m, Visit n m ∈ trace st ->
                      Visit n m ∈ trace (visit_state st p q)) as Htr
    by (intros; by right).
  pose proof (popped_is_visited st p q (trace (visit_state st p q))
                Hsearch Hord Hx Htr (or_intror (list_elem_of_here _ _))) as Hq.
  assert (forall n m, Visit n m ∈ trace st -> cube n <> cube p.1) as Hother.
  { intros n m Hin Hc. apply Hnew. rewrite <- Hc.
    apply (inv_marked _ _ _ Hsearch). apply elem_visited_cubes. by exists n, m. }
  destruct Hord as [Hmarks Hdepth Hbefore Hprobed Hroot Honce Hdone Hvl Hql].
  split; cbn [self trace pq visited move_done set_visited set_move_done visit_state].
  + intros c Hc. destruct (decide (cube p.1 = c)) as [<-|Hne]; [by left|].
    rewrite lookup_insert_ne in Hc by done.
    apply map_index_true in Hc. right. by apply Hmarks.
  + intros n m Hin. apply elem_of_cons in Hin as [[= -> ->]|Hin]; [done|].
    by eapply Hdepth.
  + intros n m e Hin He.
    apply elem_of_cons in Hin as [[= -> ->]|Hin].
    * pose proof (pq_extract_top _ _ _ Hx e (pq_extract_rest _ _ _ _ Hx He)) as Hc.
      apply compareCube_false in Hc. unfold cost in Hc.
      destruct (inv_queue _ _ _ Hsearch e (pq_extract_rest _ _ _ _ Hx He)) as [He0 _].
      lia.
    * eapply Hbefore; [done|]. by eapply pq_extract_rest.
  + intros n m i Hin Hi [Hne|Hi0]; [|by apply elem_of_nil in Hi0].
    apply elem_of_cons in Hin as [[= -> ->]|Hin]; [done|].
    eapply (probed_step bound st); try done.
    * intros n1 Hn1. by right.
    * by eapply Hprobed.
  + by eapply (covered_step st).
  + intros n m Hin Hc. apply elem_of_cons in Hin as [[= -> ->]|Hin];
      [|by eapply Honce].
    destruct (Hql p Hp) as [[Hd0 _]|(Hd & _ & n' & m' & Hin' & Hdn' & _)]; [done|].
    exfalso. apply Hnew. rewrite Hc.
    destruct Hroot as [(n0 & m0 & Hin0 & Hc0 & _)|(e & He & Hce & Hde)].
    * apply (inv_marked _ _ _ Hsearch). apply elem_visited_cubes. by exists n0, m0.
    * pose proof (Hbefore _ _ _ Hin' He) as Hle.
      pose proof (Hdepth _ _ Hin') as Hge.
      destruct (Hvl _ _ Hin') as [[_ Hc']|(Hd' & _)]; [|lia].
      apply (inv_marked _ _ _ Hsearch). apply elem_visited_cubes. by exists n', m'.
  + intros n m Hin. apply elem_of_cons in Hin as [[= -> ->]|Hin].
    * apply lookup_insert_eq.
    * rewrite lookup_insert_ne; [by eapply Hdone|].
      intros Hc. by eapply Hother.
  + intros n m Hin. eapply parent_link_mono; [exact Htr|].
    apply elem_of_cons in Hin as [[= -> ->]|Hin]; [by apply Hql | by eapply Hvl].
  + intros e He. eapply parent_link_mono; [exact Htr|].
    apply Hql. by eapply pq_extract_rest.
Qed.

(** Passing the visited check: the [for] loop starts with no move done. *)
Lemma expanding_visit st p q :
  searching st ->
  pq_extract (pq st) = Some (p, q) ->
  (map_index false (visited (self st)) (cube p.1)).1 = false ->
  isSolved (cube p.1) = false ->
  expanding p.1 []
    (mkNode (cube p.1) (depth p.1 + 1) (estimate p.1), visit_state st p q).
Proof.
  intros [Hsearch Hreach Huns Hprune Hord] Hx Hseen Hunsolved.
  pose proof (pq_extract_elem _ _ _ Hx) as Hp.
  destruct (inv_queue _ _ _ Hsearch p Hp) as [Hest Hdep].
  assert (visited (self st) !! cube p.1 <> Some true) as Hnew.
  { intros Hm. rewrite map_index_fst, Hm in Hseen. done. }
  assert (forall n m, Visit n m ∈ trace st ->
                      Visit n m ∈ trace (visit_state st p q)) as Htr
    by (intros; by right).
  pose proof (popped_is_visited st p q (trace (visit_state st p q))
                Hsearch Hord Hx Htr (or_intror (list_elem_of_here _ _))) as Hq.
  assert (forall n m, Visit n m ∈ trace st -> cube n <> cube p.1) as Hother.
  { intros n m Hin Hc. apply Hnew. rewrite <- Hc.
    apply (inv_marked _ _ _ Hsearch). apply elem_visited_cubes. by exists n, m. }
  destruct Hord as [Hmarks Hdepth Hbefore Hprobed Hroot Honce Hdone Hvl Hql].
  split; cbn [fst snd].
  - by apply search_inv_visit.
  - by apply reach_inv_visit.
  - intros n m Hin. apply elem_of_cons in Hin as [[= -> ->]|Hin]; [done|].
    by eapply Huns.
  - intros n Hin. apply elem_of_cons in Hin as [?|Hin]; [done|]. by apply Hprune.
  - by apply order_inv_visit.
  - done.
  - done.
  - exists p.2. by left.
  - intros n m Hin. apply elem_of_cons in Hin as [[= -> ->]|Hin]; [done|].
    by eapply Hbefore.
Qed.

(** One more move of the [for] loop is done. *)
Lemma expanding_probe cur done node st i :
  i ∈ move_indices ->
  expanding cur done (node, st) ->
  expanding cur (done ++ [i]) (probe bound (node, st) i).
Proof.
  intros Hi [Hsearch Hreach Huns Hprune Hord Hcube Hlevel [mcur Hcur] Hlatest].
  cbn [fst snd] in *.
  destruct Hord as [Hmarks Hdepth Hbefore Hprobed Hroot Honce Hdone Hvl Hql].
  pose proof (Hdepth _ _ Hcur) as Hdcur.
  assert (reached_in move root (depth cur) (cube cur)) as Hplaced
    by apply (reach_events _ _ _ Hreach _ Hcur).
  assert (invert (move (cube cur) i) i = cube cur) as Hback
    by (by eapply round_trip).
  destruct (search_inv_probe move invert s0 bound node st i) as [Hsearch1 _];
    [lia | done |].
  destruct (reach_inv_probe move invert root round_trip bound node st i)
    as [Hreach1 _]; [done | done | |].
  { rewrite Hcube, Hlevel. by replace (depth cur + 1 - 1) with (depth cur) by lia. }
  pose proof (probe_shape bound node st i) as Hshape. cbn zeta in Hshape.
  destruct (probe bound (node, st) i) as [node1 st1].
  cbn [fst snd] in *. rewrite Hcube, Hlevel in Hshape.
  destruct Hshape as (Hc1 & Hd1 & Hmd & Hvis & Hcase).
  set (c' := move (cube cur) i) in *.
  set (new := mkNode c' (depth cur + 1) 0) in *.
  assert (forall n m, Visit n m ∈ trace st -> Visit n m ∈ trace st1) as Htr.
  { intros n m Hin.
    destruct Hcase as [(_ & -> & _)|[(_ & _ & -> & _)|(_ & _ & -> & _)]];
      [done | by right | by right]. }
  assert (forall n m, Visit n m ∈ trace st1 -> Visit n m ∈ trace st) as Htr'.
  { intros n m Hin.
    destruct Hcase as [(_ & Ht & _)|[(_ & _ & Ht & _)|(_ & _ & Ht & _)]];
      rewrite Ht in Hin; [done | |];
      by apply elem_of_cons in Hin as [?|Hin]. }
  assert (forall n, Prune n ∈ trace st -> Prune n ∈ trace st1) as HprM.
  { intros n Hin.
    destruct Hcase as [(_ & -> & _)|[(_ & _ & -> & _)|(_ & _ & -> & _)]];
      [done | by right | by right]. }
  assert (forall e, e ∈ pq st -> e ∈ pq st1) as HqM.
  { intros e He.
    destruct Hcase as [(_ & _ & ->)|[(_ & _ & _ & ->)|(_ & _ & _ & ->)]];
      [done | done |]. apply elem_of_app. by left. }
  assert (forall e, e ∈ pq st1 -> e ∈ pq st \/
            (e = (new, i) /\ depth cur + 1 <= bound)) as HqN.
  { intros e He.
    destruct Hcase as [(_ & _ & Hq)|[(_ & _ & _ & Hq)|(_ & Hle & _ & Hq)]];
      rewrite Hq in He; [by left | by left |].
    apply elem_of_app in He as [He|He]; [by left|].
    apply list_elem_of_singleton in He. right. by split. }
  assert (probed bound st1 cur i) as Hnow.
  { destruct Hcase as [(Hseen & Ht & Hq)|[(Hnew & Hlt & Ht & Hq)|(Hnew & Hle & Ht & Hq)]].
    - apply Hmarks, elem_visited_cubes in Hseen as (n' & m' & Hin' & Hcn').
      split; intros Hd.
      + left. exists n', m'. split; [by apply Htr|]. split; [done|].
        specialize (Hlatest _ _ Hin'). lia.
      + left. apply elem_visited_cubes. exists n', m'. split; [by apply Htr | done].
    - split; intros Hd; [lia|]. right. rewrite Ht. by left.
    - split; intros Hd; [|lia]. right. exists (new, i). rewrite Hq.
      split; [apply elem_of_app; right; by left|]. split; [done|]. cbn. lia. }
  split; cbn [fst snd].
  - done.
  - done.
  - intros n m Hin. by eapply Huns, Htr'.
  - intros n Hin.
    destruct Hcase as [(_ & Ht & _)|[(_ & Hlt & Ht & _)|(_ & _ & Ht & _)]];
      rewrite Ht in Hin.
    + by apply Hprune.
    + apply elem_of_cons in Hin as [[= ->]|Hin]; [|by apply Hprune].
      cbn. split; [done | lia].
    + apply elem_of_cons in Hin as [?|Hin]; [done|]. by apply Hprune.
  - split.
    + intros c Hc. apply Hvis, Hmarks, elem_visited_cubes in Hc as (n & m & Hin & Hcn).
      apply elem_visited_cubes. exists n, m. split; [by apply Htr | done].
    + intros n m Hin. by eapply Hdepth, Htr'.
    + intros n m e Hin He. apply Htr' in Hin.
      destruct (HqN e He) as [He'|[-> Hle]]; [by eapply Hbefore|].
      cbn. specialize (Hlatest _ _ Hin). lia.
    + intros n m i0 Hin Hi0 Hok. apply Htr' in Hin.
      assert ((n <> cur \/ i0 ∈ done) \/ (n = cur /\ i0 = i)) as [Hold|[-> ->]].
      { destruct Hok as [Hne|Hin0]; [by left; left|].
        apply elem_of_app in Hin0 as [Hin0|Hin0]; [by left; right|].
        apply list_elem_of_singleton in Hin0 as ->.
        destruct (decide (cube n = cube cur)) as [Heq|Hne].
        - right. split; [|done].
          by destruct (visit_unique _ _ _ _ _ (inv_once _ _ _ Hsearch) Hin Hcur Heq).
        - left. left. by intros ->. }
      * eapply (probed_step bound st); try done.
        -- intros e He. left. by apply HqM.
        -- by eapply Hprobed.
      * done.
    + eapply (covered_step st); try done. intros e He. left. by apply HqM.
    + intros n m Hin. by eapply Honce, Htr'.
    + intros n m Hin. rewrite Hmd. by eapply Hdone, Htr'.
    + intros n m Hin. eapply parent_link_mono; [exact Htr|]. by eapply Hvl, Htr'.
    + intros e He. eapply parent_link_mono; [exact Htr|].
      destruct (HqN e He) as [He'|[-> Hle]]; [by apply Hql|].
      right. cbn. split; [lia|]. split; [done|].
      exists cur, mcur. split; [done|]. split; [lia|]. by split.
  - by rewrite Hc1.
  - by rewrite Hd1.
  - exists mcur. by apply Htr.
  - intros n m Hin. by eapply Hlatest, Htr'.
Qed.

Lemma foldl_done_ind {A} (Q : list Z -> A -> Prop) (f : A -> Z -> A)
    (l done : list Z) (a : A) :
  Q done a ->
  (forall d i a, i ∈ l -> Q d a -> Q (d ++ [i]) (f a i)) ->
  Q (done ++ l) (foldl f a l).
Proof.
  revert done a. induction l as [|i l IH]; intros done a Ha Hstep.
  - by rewrite app_nil_r.
  - cbn. replace (done ++ i :: l) with ((done ++ [i]) ++ l)
      by (by rewrite <- app_assoc).
    apply IH.
    + apply Hstep; [by left | done].
    + intros d j b Hj. apply Hstep. by right.
Qed.

(** The invariant survives a pass that goes round again. *)
Lemma searching_step st st' :
  searching st -> loop_body bound st = Continue st' -> searching st'.
Proof.
  intros Hinv Hbody.
  apply loop_body_continue in Hbody as (p & q & Hx & Hcase). cbn zeta in Hcase.
  destruct Hcase as [[Hseen ->]|(Hseen & Hsol & ->)].
  - by apply searching_skip.
  - pose proof (expanding_visit st p q Hinv Hx Hseen Hsol) as Hstart.
    pose proof (foldl_done_ind
                  (fun done acc => expanding p.1 done acc) (probe bound)
                  move_indices [] _ Hstart) as Hend.
    cbn [app] in Hend.
    destruct Hend as [Hsearch Hreach Huns Hprune Hord _ _ _ _].
    { intros d i a Hi Ha. destruct a as [node st1]. by apply expanding_probe. }
    split; try done.
    destruct Hord as [Hmarks Hdepth Hbefore Hprobed Hroot Honce Hdone Hvl Hql].
    split; try done.
    intros n m i Hin Hi _. eapply Hprobed; [exact Hin | done | by right].
Qed.

(** What a finished call on a clean object leaves: the invariant held when
    the last pass began, and that pass returned. *)
Lemma IDAstar_searching fuel r s' tr :
  clean s0 -> rubiksCube s0 = root ->
  IDAstar fuel bound s0 = Some (r, s', tr) ->
  exists st0 st',
    searching st0 /\
    loop_body bound st0 = Return r st' /\
    s' = self st' /\ tr = trace st'.
Proof.
  intros Hclean Hroot. unfold IDAstarSolver.IDAstar.
  destruct (IDAstar_loop fuel bound (IDAstar_init s0)) as [[r0 st']|] eqn:Hl; [|done].
  intros [= -> <- <-].
  destruct (IDAstar_loop_ind move invert isSolved searching bound
              searching_step fuel (IDAstar_init s0) r st'
              (searching_init Hclean Hroot) Hl)
    as (st0 & Hinv & Hret).
  by exists st0, st'.
Qed.

(** *** What the log holds when the call returns *)

(** Everything nearer to the root than the whole queue has been
    visited. *)
Lemma visited_below st L :
  searching st ->
  (forall e, e ∈ pq st -> L <= depth e.1) ->
  forall ms : list MOVE,
    Forall (fun m => m ∈ move_indices) ms ->
    Z.of_nat (length ms) < L ->
    Z.of_nat (length ms) <= Z.max 0 bound ->
    visited_at (trace st) (Z.of_nat (length ms)) (apply_moves move root ms).
Proof.
  intros [Hsearch Hreach Huns Hprune Hord] HL ms.
  induction ms as [|m ms IH] using rev_ind; intros Hall Hlt Hle.
  - destruct (ord_root _ _ _ _ _ _ Hord) as [Hv|(e & He & Hc & Hd)]; [done|].
    specialize (HL e He). cbn in Hlt. lia.
  - apply Forall_app in Hall as [Hall Hm]. rewrite Forall_singleton in Hm.
    rewrite length_app in *. cbn [length] in *.
    destruct IH as (n & m0 & Hin & Hc & Hd); [done | lia | lia |].
    unfold apply_moves. rewrite foldl_app. cbn [foldl].
    fold (apply_moves move root ms). rewrite <- Hc.
    destruct (ord_probed _ _ _ _ _ _ Hord n m0 m Hin Hm I) as [Hcov _].
    destruct Hcov as [Hv|(e & He & Hce & Hde)]; [lia | |].
    + eapply visited_at_mono; [| |exact Hv]; [done | lia].
    + specialize (HL e He). lia.
Qed.

Lemma unsolved_below st L d c :
  searching st ->
  (forall e, e ∈ pq st -> L <= depth e.1) ->
  0 <= d < L -> d <= Z.max 0 bound ->
  reached_in move root d c -> isSolved c = false.
Proof.
  intros Hinv HL Hd Hle (ms & Hlen & Hall & <-).
  destruct (visited_below st L Hinv HL ms Hall) as (n & m & Hin & Hc & _);
    [lia | lia |].
  rewrite <- Hc. by eapply (sea_unsolved _ _ _ _ _ _ _ Hinv).
Qed.

(** The entry that leaves the queue is the shallowest one. *)
Lemma popped_is_shallowest st p q :
  search_inv s0 bound st ->
  pq_extract (pq st) = Some (p, q) ->
  forall e, e ∈ pq st -> depth p.1 <= depth e.1.
Proof.
  intros Hsearch Hx e He.
  pose proof (pq_extract_top _ _ _ Hx e He) as Hc.
  apply compareCube_false in Hc. unfold cost in Hc.
  destruct (inv_queue _ _ _ Hsearch e He) as [He0 _].
  destruct (inv_queue _ _ _ Hsearch p (pq_extract_elem _ _ _ Hx)) as [Hp0 _].
  lia.
Qed.

(** The moves recorded in [move_done] lead from every visited cube back
    to the root, and [path_loop] reads them in that order. *)
Lemma path_loop_reads_back ok st :
  order_inv root bound ok st ->
  forall (k : nat) n m,
    Z.to_nat (depth n) = k ->
    Visit n m ∈ trace st ->
    exists ms : list MOVE,
      Z.of_nat (length ms) = depth n /\
      Forall (fun m => m ∈ move_indices) ms /\
      apply_moves move root ms = cube n /\
      forall s (f : nat),
        move_done s = move_done (self st) ->
        rubiksCube s = root ->
        path_loop invert (S k + f) (cube n) s =
          Some (set_moves s (moves s ++ reverse ms)).
Proof.
  intros Hord k. induction k as [|k IH]; intros n m Hk Hin.
  - pose proof (ord_depth _ _ _ _ _ _ Hord _ _ Hin) as Hd.
    destruct (ord_visit_link _ _ _ _ _ _ Hord _ _ Hin)
      as [[Hd0 Hc]|(Hpos & _)]; [|lia].
    exists []. split; [by rewrite Hd0|]. split; [done|]. split; [done|].
    intros s f Hmd Hroot.
    cbn. rewrite bool_decide_false by (intros Hne; apply Hne; congruence).
    destruct s. cbn. by rewrite app_nil_r.
  - pose proof (ord_depth _ _ _ _ _ _ Hord _ _ Hin) as Hd.
    destruct (ord_visit_link _ _ _ _ _ _ Hord _ _ Hin)
      as [[Hd0 Hc]|(Hpos & Hm & n' & m' & Hin' & Hdn' & Hcn & Hback)]; [lia|].
    pose proof (ord_done _ _ _ _ _ _ Hord _ _ Hin) as Hdone.
    destruct (IH n' m') as (ms & Hlen & Hall & Hpath & Hrun); [lia | done |].
    exists (ms ++ [m]). split; [rewrite length_app; cbn; lia|].
    split; [apply Forall_app; split; [done | by apply Forall_singleton]|].
    split.
    { unfold apply_moves in *. rewrite foldl_app. cbn. by rewrite Hpath. }
    intros s f Hmd Hroot.
    assert (cube n <> rubiksCube s) as Hne.
    { rewrite Hroot. intros Hc.
      pose proof (ord_root_once _ _ _ _ _ _ Hord _ _ Hin Hc). lia. }
    set (s1 := set_moves (set_move_done s (move_done s))
                 (moves (set_move_done s (move_done s)) ++ [m])).
    specialize (Hrun s1 f Hmd Hroot).
    change (S (S k) + f)%nat with (S (S k + f)).
    cbn [IDAstarSolver.path_loop].
    rewrite bool_decide_true by done.
    rewrite <- Hmd in Hdone. unfold map_index, MOVE in *. rewrite Hdone, Hback.
    fold s1. rewrite Hrun. f_equal.
    rewrite reverse_app. subst s1. destruct s. cbn. by rewrite <- app_assoc.
Qed.

(** With the queue empty and nothing pruned, the visited cubes are closed
    under the moves: every cube the moves can make of the root was
    visited. *)
Lemma visited_everything st :
  searching st -> pq st = [] ->
  (forall n, Prune n ∉ trace st) ->
  forall ms : list MOVE,
    Forall (fun m => m ∈ move_indices) ms ->
    apply_moves move root ms ∈ visited_cubes (trace st).
Proof.
  intros [Hsearch Hreach Huns Hprune Hord] Hnil Hnone ms.
  assert (forall j c, covered st j c -> c ∈ visited_cubes (trace st)) as Hcov.
  { intros j c [(n & m & Hin & Hc & _)|(e & He & _)].
    - apply elem_visited_cubes. by exists n, m.
    - rewrite Hnil in He. by apply elem_of_nil in He. }
  induction ms as [|m ms IH] using rev_ind; intros Hall.
  - by eapply Hcov, (ord_root _ _ _ _ _ _ Hord).
  - apply Forall_app in Hall as [Hall Hm]. rewrite Forall_singleton in Hm.
    apply IH, elem_visited_cubes in Hall as (n & m0 & Hin & Hc).
    unfold apply_moves. rewrite foldl_app. cbn [foldl].
    fold (apply_moves move root ms). rewrite <- Hc.
    destruct (ord_probed _ _ _ _ _ _ Hord n m0 m Hin Hm I) as [Hnear Hfar].
    destruct (decide (depth n + 1 <= bound)) as [Hle|Hgt].
    + by eapply Hcov, Hnear.
    + destruct Hfar as [Hv|Hp]; [lia | done |]. by destruct (Hnone _ Hp).
Qed.

(** The two ways a call on a clean object ends. *)
Lemma IDAstar_clean_outcome fuel r s' tr :
  clean s0 -> rubiksCube s0 = root ->
  IDAstar fuel bound s0 = Some (r, s', tr) ->
  (~ reached_solved tr /\
   r = (root, foldr Z.min 100 (pruned_costs tr)) /\
   (forall d c, 0 <= d <= Z.max 0 bound -> reached_in move root d c ->
                isSolved c = false) /\
   (pruned_costs tr = [] ->
    forall d c, reached_in move root d c -> isSolved c = false)) \/
  (exists n m tr0,
     tr = Solved n :: Visit n m :: tr0 /\
     r = (cube n, bound) /\
     isSolved (cube n) = true /\
     0 <= depth n <= Z.max 0 bound /\
     (forall d c, 0 <= d < depth n -> reached_in move root d c ->
                  isSolved c = false) /\
     exists ms : list MOVE,
       Z.of_nat (length ms) = depth n /\
       Forall (fun m => m ∈ move_indices) ms /\
       apply_moves move root ms = cube n /\
       forall s (f : nat),
         move_done s = move_done s' -> rubiksCube s = root ->
         path_loop invert (S (Z.to_nat (depth n)) + f) (cube n) s =
           Some (set_moves s (moves s ++ reverse ms))).
Proof.
  intros Hclean Hroot Hrun.
  destruct (IDAstar_searching _ _ _ _ Hclean Hroot Hrun)
    as (st0 & st' & Hinv & Hret & -> & ->).
  pose proof (sea_search _ _ _ _ _ _ _ Hinv) as Hsearch.
  apply loop_body_return in Hret
    as [(Hnil & -> & ->)|(p & q & Hx & Hseen & Hsol & -> & ->)].
  - left. split; [|split; [|split]].
    + intros [n Hn]. by apply (inv_unsolved _ _ _ Hsearch n).
    + by rewrite (inv_root _ _ _ Hsearch), Hroot, (inv_next_bound _ _ _ Hsearch).
    + intros d c Hd Hc.
      apply (unsolved_below st0 (d + 1) d c Hinv); [|lia|lia|done].
      intros e He. rewrite Hnil in He. by apply elem_of_nil in He.
    + intros Hnone d c (ms & _ & Hall & <-).
      assert (forall n, Prune n ∉ trace st0) as Hnone'.
      { intros n Hn.
        assert (cost n ∈ pruned_costs (trace st0)) as Hin
          by (apply list_elem_of_omap; by exists (Prune n)).
        rewrite Hnone in Hin. by apply elem_of_nil in Hin. }
      pose proof (visited_everything st0 Hinv Hnil Hnone' ms Hall) as Hv.
      apply elem_visited_cubes in Hv as (n & m & Hin & <-).
      by eapply (sea_unsolved _ _ _ _ _ _ _ Hinv).
  - right. exists p.1, p.2, (trace st0).
    pose proof (inv_queue _ _ _ Hsearch p (pq_extract_elem _ _ _ Hx)) as [_ Hd].
    split; [done|]. split; [done|]. split; [done|]. split; [done|]. split.
    + intros d c Hlt Hc.
      apply (unsolved_below st0 (depth p.1) d c Hinv); [|lia|lia|done].
      by eapply popped_is_shallowest.
    + apply (path_loop_reads_back _ (visit_state st0 p q)
                (order_inv_visit st0 p q Hinv Hx Hseen) _ p.1 p.2 eq_refl).
      by left.
Qed.

End Invariant.

End Order.

End OrderFacts.
(** ** What a call finds, and what [solve] makes of it *)

Module SearchTheorems.
Import IDAstarSolver SearchSpec SearchOrder FrontierFacts SearchFacts DriverFacts OrderFacts.

Section Comparator.
Context {T : Type}.

(** X1. [compareCube] is a strict weak ordering, which is what
    [std::priority_queue] asks of its comparator: no entry is placed below
    itself, the relation is transitive, and so is being placed neither
    below nor above. Two entries are placed neither way exactly when they
    agree on [depth + estimate] and on [estimate]. *)
Theorem compareCube_strict_weak_order :
  (forall a : @Node T * Z, compareCube a a = false) /\
  (forall a b c : @Node T * Z,
     compareCube a b = true -> compareCube b c = true -> compareCube a c = true) /\
  (forall a b c : @Node T * Z,
     compareCube a b = false -> compareCube b a = false ->
     compareCube b c = false -> compareCube c b = false ->
     compareCube a c = false /\ compareCube c a = false) /\
  (forall a b : @Node T * Z,
     compareCube a b = false /\ compareCube b a = false <->
     cost a.1 = cost b.1 /\ estimate a.1 = estimate b.1).
Proof.
  split; [|split; [|split]].
  - intros a. apply compareCube_false. lia.
  - intros a b c Hab Hbc.
    apply compareCube_true in Hab. apply compareCube_true in Hbc.
    apply compareCube_true. lia.
  - intros a b c Hab Hba Hbc Hcb.
    apply compareCube_false in Hab. apply compareCube_false in Hba.
    apply compareCube_false in Hbc. apply compareCube_false in Hcb.
    split; apply compareCube_false; lia.
  - intros a b. rewrite !compareCube_false. lia.
Qed.

End Comparator.

Section Theorems.
Context {T : Type} `{Countable T}.
Variable move : T -> MOVE -> T.
Variable invert : T -> MOVE -> T.
Variable isSolved : T -> bool.

Local Abbreviation IDAstar := (IDAstar move invert isSolved).
Local Abbreviation path_loop := (path_loop invert).
Local Abbreviation solve := (solve move invert isSolved).

Implicit Types (s : Solver (T := T)) (p r : T * Z) (c : T).

(** X2. A call leaves the cube of the object, its [moves] and its table as
    they were, and never takes a visited mark away. What it reports is
    either the cube of the object or a solved cube together with the bound
    it was given. *)
Theorem IDAstar_frame fuel bound s r s' tr :
  IDAstar fuel bound s = Some (r, s', tr) ->
  rubiksCube s' = rubiksCube s /\
  moves s' = moves s /\
  cornerDB s' = cornerDB s /\
  (forall c, visited s !! c = Some true -> visited s' !! c = Some true) /\
  (r.1 = rubiksCube s \/ (isSolved r.1 = true /\ r.2 = bound)).
Proof.
  intros Hrun.
  pose proof (IDAstar_outcome _ _ _ _ _ _ _ _ _ Hrun)
    as (_ & _ & _ & _ & Hroot & Hmoves & Hdb & Hcase).
  split; [done|]. split; [done|]. split; [done|]. split.
  - apply IDAstar_returns in Hrun as (st0 & st' & Hinv & Hret & -> & ->).
    apply loop_body_return in Hret
      as [(_ & _ & ->)|(p & q & Hx & Hseen & _ & _ & ->)].
    + apply (inv_stale _ _ _ Hinv).
    + apply (inv_stale _ _ _ (search_inv_visit _ _ _ _ _ Hinv Hx Hseen)).
  - destruct Hcase as [[_ ->]|(n & m & tr0 & _ & _ & Hs & -> & _)];
      [by left | by right].
Qed.

(** X3. Every candidate a call prunes costs exactly one more than the
    bound (exactly one, when the bound is negative). So a call that ends
    without a solved cube reports 100 when it pruned nothing, and
    otherwise the smaller of 100 and the bound plus one: the next bound is
    never more than one step ahead. *)
Theorem pruned_costs_one_past_bound fuel bound s r s' tr :
  IDAstar fuel bound s = Some (r, s', tr) ->
  (forall x : Z, x ∈ pruned_costs tr -> x = Z.max 0 bound + 1) /\
  (~ reached_solved tr ->
   r.2 = if decide (pruned_costs tr = []) then 100
         else Z.min 100 (Z.max 0 bound + 1)).
Proof.
  intros Hrun.
  pose proof (pruned_cost_exact _ _ _ _ _ _ _ _ _ Hrun) as Hexact.
  split; [done|]. intros Hno.
  apply IDAstar_outcome in Hrun
    as (_ & _ & _ & _ & _ & _ & _ & [[_ ->]|(n & m & tr0 & -> & _)]).
  - cbn [snd]. by apply foldr_min_const.
  - destruct Hno. exists n. by left.
Qed.

(** X6. In every run of [solve], finished or not, every call after the
    first is made with the bound 2 or with the bound 100, and all of them
    with the same one: the bound passed never goes beyond what the first
    call, made with bound 1, can report. *)
Theorem later_bounds_are_2_or_100 fuel s :
  exists rest,
    (solve fuel s).2 = mkCall 1 s :: rest /\
    Forall (fun k => call_bound k = 2 \/ call_bound k = 100) rest /\
    (forall k k', k ∈ rest -> k' ∈ rest -> call_bound k = call_bound k').
Proof.
  destruct (IDAstar_terminates move invert isSolved 1 s) as [[[p s1] tr1] Hrun].
  destruct (later_calls_repeat _ _ _ _ _ _ _ _ fuel Hrun) as (rest & Heq & Hall).
  rewrite Forall_forall in Hall.
  pose proof (pruned_cost_exact _ _ _ _ _ _ _ _ _ Hrun) as Hexact.
  pose proof (IDAstar_outcome _ _ _ _ _ _ _ _ _ Hrun)
    as (_ & _ & _ & _ & _ & _ & _ & Hcase).
  destruct Hcase as [[_ ->]|(n & m & tr0 & _ & _ & _ & -> & _)].
  - exists rest. split; [done|]. split.
    + apply Forall_forall. intros k Hk. rewrite (Hall k Hk). cbn [snd].
      rewrite (foldr_min_const _ _ Hexact).
      destruct (decide (pruned_costs tr1 = [])); [by right | by left].
    + intros k k' Hk Hk'. by rewrite (Hall k Hk), (Hall k' Hk').
  - exists []. split; [|split; [done|]].
    + unfold IDAstarSolver.solve.
      destruct (IDAstar fuel 1 s) as [[[p' s1'] tr1']|] eqn:Hrun'; [|done].
      pose proof (IDAstar_deterministic _ _ _ _ _ _ _ _ _ Hrun' Hrun) as Heq'.
      injection Heq' as -> -> ->.
      destruct fuel as [|fuel]; [done|].
      cbn [IDAstarSolver.solve_loop snd].
      rewrite bool_decide_false by (intros Hne; by apply Hne).
      by destruct (path_loop (S fuel) (cube n, 1).1 s1).
    + intros k k' Hk. by apply elem_of_nil in Hk.
Qed.

(** *** On a clean object, where [invert] undoes [move] *)

Section Contract.
Variable root : T.

Hypothesis round_trip :
  forall (c : T) (d : Z) (m : MOVE),
    reached_in move root d c -> m ∈ move_indices -> invert (move c m) m = c.

(** The first call on a cube that can be solved, but not with one move:
    it reports 2. *)
Lemma first_call_reports_two fuel s p s1 tr1 d c :
  clean s -> rubiksCube s = root ->
  (forall d c, 0 <= d <= 1 -> reached_in move root d c -> isSolved c = false) ->
  reached_in move root d c -> isSolved c = true ->
  IDAstar fuel 1 s = Some (p, s1, tr1) ->
  p = (root, 2).
Proof.
  intros Hclean Hroot Hfar Hc Hsol Hrun.
  pose proof (pruned_cost_exact _ _ _ _ _ _ _ _ _ Hrun) as Hexact.
  destruct (IDAstar_clean_outcome move invert isSolved root s 1 round_trip
              _ _ _ _ Hclean Hroot Hrun)
    as [(_ & -> & _ & Hclosed)|(n & m & tr0 & _ & _ & Hs & Hd & _ & Hpath)].
  - rewrite (foldr_min_const _ _ Hexact).
    destruct (decide (pruned_costs tr1 = [])) as [Hnil|_]; [|done].
    rewrite (Hclosed Hnil d c Hc) in Hsol. done.
  - destruct Hpath as (ms & Hlen & Hall & Hto & _).
    rewrite (Hfar (depth n) (cube n)) in Hs; [done | lia |].
    by exists ms.
Qed.


(** X5. After a call on a clean object that ended on a solved cube, the
    moves recorded in [move_done] lead from that cube back to the root:
    the loop that reads them ends, after as many passes as the solved node
    is deep, and what it appends to [moves] is, read backwards, a sequence
    of moves that makes the reported cube of the root. *)
Theorem recorded_moves_lead_back fuel bound s r s' tr :
  clean s -> rubiksCube s = root ->
  IDAstar fuel bound s = Some (r, s', tr) ->
  reached_solved tr ->
  exists ms : list MOVE,
    Forall (fun m => m ∈ move_indices) ms /\
    Z.of_nat (length ms) <= Z.max 0 bound /\
    apply_moves move root ms = r.1 /\
    isSolved r.1 = true /\
    forall f : nat, (length ms < f)%nat ->
      path_loop f r.1 s' = Some (set_moves s' (moves s ++ reverse ms)).
Proof.
  intros Hclean Hroot Hrun Hsolved.
  pose proof (IDAstar_outcome _ _ _ _ _ _ _ _ _ Hrun)
    as (_ & _ & _ & _ & Hroot' & Hmoves & _).
  destruct (IDAstar_clean_outcome move invert isSolved root s bound round_trip
              _ _ _ _ Hclean Hroot Hrun)
    as [(Hno & _)|(n & m & tr0 & -> & -> & Hs & Hdn & Hbelow & Hpath)]; [done|].
  destruct Hpath as (ms & Hlen & Hall & Hto & Hread).
  exists ms. split; [done|]. split; [lia|]. split; [done|]. split; [done|].
  intros f Hf.
  replace f with (S (Z.to_nat (depth n)) + (f - S (length ms)))%nat by lia.
  rewrite <- Hmoves. cbn [fst]. apply Hread; [done | congruence].
Qed.

(** X7. [solve] on a clean object whose cube is solved or one move from
    solved: it returns after a single call, with a shortest sequence of
    moves that solves the cube (followed by what [moves] held before, in
    reverse order: nothing on a new object), and leaves the solved cube in
    the object. *)
Theorem solve_within_one_move s d c :
  clean s -> rubiksCube s = root ->
  0 <= d <= 1 -> reached_in move root d c -> isSolved c = true ->
  exists (ms : list MOVE) s',
    (forall fuel, (21 <= fuel)%nat ->
       solve fuel s = (Some (ms ++ reverse (moves s), s'), [mkCall 1 s])) /\
    Forall (fun m => m ∈ move_indices) ms /\
    Z.of_nat (length ms) <= d /\
    isSolved (apply_moves move root ms) = true /\
    rubiksCube s' = apply_moves move root ms.
Proof.
  intros Hclean Hroot Hd Hc Hsol.
  destruct (IDAstar_terminates move invert isSolved 1 s) as [[[p s1] tr1] Hrun].
  pose proof (IDAstar_outcome _ _ _ _ _ _ _ _ _ Hrun)
    as (_ & _ & _ & _ & Hroot1 & Hmoves1 & _).
  destruct (IDAstar_clean_outcome move invert isSolved root s 1 round_trip
              _ _ _ _ Hclean Hroot Hrun)
    as [(_ & _ & Hnear & _)|(n & m & tr0 & _ & -> & Hs & Hdn & Hbelow & Hpath)].
  { rewrite (Hnear d c) in Hsol; [done | lia | done]. }
  destruct Hpath as (ms & Hlen & Hall & Hto & Hread).
  set (s3 := set_moves s1 (moves s1 ++ reverse ms)).
  exists ms, (set_moves (set_rubiksCube s3 (cube n))
                        (reverse (moves (set_rubiksCube s3 (cube n))))).
  split; [|split; [done|split; [|split]]].
  - intros fuel Hfuel.
    assert (IDAstar fuel 1 s = Some ((cube n, 1), s1, tr1)) as Hrun'
      by (eapply IDAstar_mono;
          [exact Hrun | change (2 + subtree (Z.to_nat 1))%nat with 21%nat; lia]).
    assert (path_loop fuel (cube n) s1 = Some s3) as Hp.
    { replace fuel with (S (Z.to_nat (depth n)) + (fuel - S (Z.to_nat (depth n))))%nat
        by lia.
      apply Hread; [done | congruence]. }
    unfold IDAstarSolver.solve. rewrite Hrun'.
    destruct fuel as [|fuel']; [lia|].
    cbn [IDAstarSolver.solve_loop snd fst].
    rewrite bool_decide_false by (intros Hne; by apply Hne).
    rewrite Hp. cbn -[reverse]. subst s3. cbn -[reverse].
    by rewrite Hmoves1, reverse_app, reverse_involutive.
  - destruct (decide (depth n <= d)) as [|Hlt]; [lia|].
    rewrite (Hbelow d c) in Hsol; [done | lia | done].
  - by rewrite Hto.
  - by rewrite Hto.
Qed.

(** X8. [solve] on a clean object whose cube is exactly two moves from
    solved: the first call reports 2, the second call, with bound 2 on the
    reset object, reaches a solved cube, and [solve] returns the empty
    vector with the cube of the object as unsolved as it was. *)
Theorem solve_two_moves_away s c :
  clean s -> rubiksCube s = root ->
  (forall d c, 0 <= d <= 1 -> reached_in move root d c -> isSolved c = false) ->
  reached_in move root 2 c -> isSolved c = true ->
  exists s',
    (forall fuel, (345 <= fuel)%nat ->
       solve fuel s =
       (Some ([], s'), [mkCall 1 s; mkCall 2 (resetStructure s)])) /\
    rubiksCube s' = root /\
    isSolved (rubiksCube s') = false.
Proof.
  intros Hclean Hroot Hfar Hc Hsol.
  destruct (IDAstar_terminates move invert isSolved 1 s) as [[[p s1] tr1] Hrun1].
  pose proof (first_call_reports_two _ _ _ _ _ _ _ Hclean Hroot Hfar Hc Hsol Hrun1)
    as ->.
  destruct (IDAstar_terminates move invert isSolved 2 (resetStructure s))
    as [[[r2 s2] tr2] Hrun2].
  pose proof (IDAstar_outcome _ _ _ _ _ _ _ _ _ Hrun2)
    as (_ & _ & _ & _ & Hroot2 & Hmoves2 & _).
  cbn [rubiksCube moves resetStructure] in Hroot2, Hmoves2.
  pose proof (clean_resetStructure s) as Hclean2.
  destruct (IDAstar_clean_outcome move invert isSolved root (resetStructure s) 2
              round_trip _ _ _ _ Hclean2 Hroot Hrun2)
    as [(_ & _ & Hnear & _)|(n & m & tr0 & _ & -> & _)].
  { rewrite (Hnear 2 c) in Hsol; [done | lia | done]. }
  exists (set_moves (set_rubiksCube s2 root)
                    (reverse (moves (set_rubiksCube s2 root)))).
  split; [|split].
  - intros fuel Hfuel.
    assert (IDAstar fuel 1 s = Some ((root, 2), s1, tr1)) as Hrun1'
      by (eapply IDAstar_mono;
          [exact Hrun1 | change (2 + subtree (Z.to_nat 1))%nat with 21%nat; lia]).
    assert (IDAstar fuel 2 (resetStructure s) = Some ((cube n, 2), s2, tr2))
      as Hrun2'.
    { eapply IDAstar_mono; [exact Hrun2|].
      change (2 + subtree (Z.to_nat 2))%nat with 345%nat. lia. }
    unfold IDAstarSolver.solve. rewrite Hrun1'.
    destruct fuel as [|[|fuel']]; [lia | lia |].
    cbn [IDAstarSolver.solve_loop snd fst].
    rewrite bool_decide_true by done.
    rewrite (resetStructure_after _ _ _ _ _ _ _ _ _ Hrun1), Hrun2'.
    cbn [snd]. rewrite bool_decide_false by (intros Hne; by apply Hne).
    assert (path_loop (S (S fuel')) root s2 = Some s2) as ->
      by (rewrite <- Hroot, <- Hroot2; apply path_loop_at_root).
    cbn -[reverse]. by rewrite Hmoves2.
  - done.
  - cbn. apply (Hfar 0 root); [lia|]. by exists [].
Qed.

(** X9. [solve] on a clean object whose cube can be solved, but not with
    two moves or fewer: it never returns. The first call reports 2, the
    call with bound 2 reports 3, and the loop repeats that call for
    ever. *)
Theorem solvable_beyond_two_never_returns s d c :
  clean s -> rubiksCube s = root ->
  (forall d c, 0 <= d <= 2 -> reached_in move root d c -> isSolved c = false) ->
  reached_in move root d c -> isSolved c = true ->
  forall fuel, (solve fuel s).1 = None.
Proof.
  intros Hclean Hroot Hfar Hc Hsol.
  destruct (IDAstar_terminates move invert isSolved 1 s) as [[[p s1] tr1] Hrun1].
  assert (p = (root, 2)) as Hp.
  { eapply first_call_reports_two; try done.
    intros d' c' Hd'. apply Hfar. lia. }
  apply (solve_beyond_two_moves move invert isSolved root round_trip
           _ s p s1 tr1 Hroot Hfar Hrun1).
  by rewrite Hp.
Qed.

End Contract.

End Theorems.

End SearchTheorems.
(** ** The dial puzzle meets the contract *)

Module DialFacts.
Import IDAstarSolver SearchSpec.

Lemma turn_even (i : Z) : exists k, Dial.turn i = 2 * k.
Proof.
  unfold Dial.turn. case_bool_decide.
  - by exists (i + 1).
  - exists (- (i - 8)). lia.
Qed.

Lemma move_range (n c i : Z) : 0 < n -> 0 <= Dial.move n c i < n.
Proof. intros Hn. unfold Dial.move. by apply Z.mod_pos_bound. Qed.

Lemma apply_moves_range (n : Z) (ms : list MOVE) (c : Z) :
  0 < n -> 0 <= c < n -> 0 <= apply_moves (Dial.move n) c ms < n.
Proof.
  intros Hn. unfold apply_moves.
  revert c. induction ms as [|m ms IH]; intros c Hc; [done|].
  cbn [foldl]. apply IH. by apply move_range.
Qed.

Lemma reached_range (n root d c : Z) :
  0 < n -> 0 <= root < n ->
  reached_in (Dial.move n) root d c -> 0 <= c < n.
Proof. intros Hn Hroot (ms & _ & _ & <-). by apply apply_moves_range. Qed.

(** [invert] undoes [move] on every position of the dial. *)
Lemma dial_round_trip (n root : Z) :
  0 < n -> 0 <= root < n ->
  forall (c d : Z) (m : MOVE),
    reached_in (Dial.move n) root d c -> m ∈ move_indices ->
    Dial.invert n (Dial.move n c m) m = c.
Proof.
  intros Hn Hroot c d m Hc _.
  pose proof (reached_range n root d c Hn Hroot Hc) as Hrange.
  unfold Dial.invert, Dial.move.
  rewrite Zminus_mod_idemp_l.
  replace (c + Dial.turn m - Dial.turn m) with c by lia.
  by apply Z.mod_small.
Qed.

(** On a dial with an even number of positions a move keeps the parity. *)
Lemma move_parity (k c i : Z) :
  0 < k -> Dial.move (2 * k) c i mod 2 = c mod 2.
Proof.
  intros Hk. unfold Dial.move.
  destruct (turn_even i) as [t ->].
  rewrite (Z.mod_eq (c + 2 * t) (2 * k)) by lia.
  replace (c + 2 * t - 2 * k * ((c + 2 * t) / (2 * k)))
    with (c + (t - k * ((c + 2 * t) / (2 * k))) * 2) by lia.
  apply Z_mod_plus_full.
Qed.

Lemma apply_moves_parity (k : Z) (ms : list MOVE) (c : Z) :
  0 < k -> apply_moves (Dial.move (2 * k)) c ms mod 2 = c mod 2.
Proof.
  intros Hk. unfold apply_moves.
  revert c. induction ms as [|m ms IH]; intros c; [done|].
  cbn [foldl]. rewrite IH. by apply move_parity.
Qed.

(** From an odd position of such a dial no sequence of moves reaches the
    solved position. *)
Lemma odd_unsolvable (k root d c : Z) :
  0 < k -> root mod 2 = 1 ->
  reached_in (Dial.move (2 * k)) root d c -> Dial.isSolved c = false.
Proof.
  intros Hk Hodd (ms & _ & _ & <-).
  pose proof (apply_moves_parity k ms root Hk) as Hpar.
  unfold Dial.isSolved. apply bool_decide_eq_false. intros Hz.
  rewrite Hz, Hodd in Hpar. done.
Qed.

End DialFacts.

(** ** The rack meets the contract *)

Module RackFacts.
Import IDAstarSolver SearchSpec.

Lemma rack_round_trip (root c d : Z) (m : MOVE) :
  reached_in Rack.move root d c -> m ∈ move_indices ->
  Rack.invert (Rack.move c m) m = c.
Proof. intros _ _. unfold Rack.invert, Rack.move. lia. Qed.

Lemma apply_moves_near (ms : list MOVE) (c : Z) :
  Z.abs (apply_moves Rack.move c ms - c) <= Z.of_nat (length ms).
Proof.
  unfold apply_moves. revert c.
  induction ms as [|m ms IH]; intros c; [cbn; lia|].
  cbn [foldl length]. specialize (IH (Rack.move c m)).
  unfold Rack.move, Rack.shift in *. case_bool_decide; lia.
Qed.

(** A notch more than [d] away from 0 is not solved by [d] moves. *)
Lemma far_unsolved (root d c : Z) :
  d < Z.abs root ->
  reached_in Rack.move root d c -> Rack.isSolved c = false.
Proof.
  intros Hfar (ms & Hlen & _ & <-).
  pose proof (apply_moves_near ms root) as Hnear.
  unfold Rack.isSolved. apply bool_decide_eq_false. lia.
Qed.

End RackFacts.

(** ** The solver on the dial: where the code and its description part *)

Module OnTheDial.
Import IDAstarSolver SearchSpec FrontierFacts SearchFacts DriverFacts.

Local Abbreviation dial100 := (Dial.move 100).

(** The projections of a call's result that the statements below read. *)
Local Abbreviation reported := (fun x : (Z * Z) * Solver (T := Z) * list (event (T := Z)) => x.1.1).
Local Abbreviation log := (fun x : (Z * Z) * Solver (T := Z) * list (event (T := Z)) => x.2).

(** Naming the result of a call whose projections [Hres] states. *)
Local Ltac name_result Hres r s' tr Hrun :=
  match type of Hres with
  | _ <$> ?call = _ =>
      destruct call as [[[r s'] tr]|] eqn:Hrun; [|discriminate Hres]
  end.

Lemma no_single_move_solves (n c : Z) :
  forallb (fun m => negb (Dial.isSolved (Dial.move n c m))) move_indices = true ->
  forall m, m ∈ move_indices -> Dial.isSolved (Dial.move n c m) = false.
Proof.
  intros Hall m Hm. rewrite forallb_forall in Hall.
  apply negb_true_iff, Hall. by apply list_elem_of_In.
Qed.

(** One move from solved the solver does its work: from position 2 it
    returns move 9, which turns the dial back by 2. *)
Lemma solve_one_move_from_solved :
  fst <$> (Dial.solve 100 100 (Dial.solver 2)).1 = Some [9] /\
  Dial.isSolved (apply_moves dial100 2 [9]) = true.
Proof. split; vm_compute; reflexivity. Qed.

(** C1 (the code at a failing input). Position 20 of the dial with 100
    positions is two moves from solved (move 17 turns back by 18, move 9 by
    2). [solve] makes two calls, with bounds 1 and 2, and returns the empty
    vector with the dial still at 20; with any other fuel it returns that
    or nothing. *)
Theorem solve_two_moves_from_solved :
  Dial.isSolved (apply_moves dial100 20 [17; 9]) = true /\
  (exists s',
     Dial.solve 100 1000 (Dial.solver 20) =
     (Some ([], s'),
      [mkCall 1 (Dial.solver 20); mkCall 2 (resetStructure (Dial.solver 20))]) /\
     rubiksCube s' = 20) /\
  Dial.isSolved (apply_moves dial100 20 []) = false /\
  (forall fuel ms s' calls,
     Dial.solve 100 fuel (Dial.solver 20) = (Some (ms, s'), calls) -> ms = []).
Proof.
  split; [vm_compute; reflexivity|]. split; [|split; [vm_compute; reflexivity|]].
  - vm_compute. eexists. split; reflexivity.
  - intros fuel ms s' calls Hsolve.
    refine (proj1 (solve_beyond_one_move dial100 (Dial.invert 100) Dial.isSolved 20
                     _ fuel (Dial.solver 20) ms s' calls eq_refl _ _ Hsolve)).
    + apply DialFacts.dial_round_trip; lia.
    + vm_compute; reflexivity.
    + apply no_single_move_solves. vm_compute; reflexivity.
Qed.

(** C2 (the code at a failing input). The table of the object gives 1 for
    position 20 and for position 22, yet the call seeds its queue with
    position 20 at estimate 0, pushes position 22 at estimate 0, and no
    node of the whole call carries any other estimate. *)
Theorem estimate_ignores_table :
  cornerDB (Dial.solver 20) 20 = 1 /\
  cornerDB (Dial.solver 20) 22 = 1 /\
  match Dial.IDAstar 100 1000 1 (Dial.solver 20) return Prop with
  | Some (r, s', tr) =>
      reverse tr !! 0%nat = Some (Seed (mkNode 20 0 0)) /\
      reverse tr !! 2%nat = Some (Push (mkNode 22 1 0) 0) /\
      forall ev, ev ∈ tr -> estimate (event_node ev) = 0
  | None => False
  end.
Proof.
  split; [vm_compute; reflexivity|]. split; [vm_compute; reflexivity|].
  assert ((fun x => (reverse (log x) !! 0%nat, reverse (log x) !! 2%nat))
            <$> Dial.IDAstar 100 1000 1 (Dial.solver 20)
          = Some (Some (Seed (mkNode 20 0 0)), Some (Push (mkNode 22 1 0) 0)))
    as Hlog by (vm_compute; reflexivity).
  name_result Hlog r s' tr Hrun.
  injection Hlog as H0 H2. split; [exact H0|]. split; [exact H2|].
  exact (proj2 (estimates_are_zero _ _ _ _ _ _ _ _ _ Hrun)).
Qed.

(** C3 (counterexample). Two calls that end without a solved cube and
    report 100, which is the cost of no pruned candidate. On the dial with
    4 positions the call from position 1 with bound 1 prunes nothing at
    all. On the rack the call from notch 200 with bound 100 prunes
    candidates, the cheapest of cost 101. *)
Lemma next_bound_is_no_pruned_cost :
  match Dial.IDAstar 4 100 1 (Dial.solver 1) return Prop with
  | Some (r, s', tr) =>
      ~ reached_solved tr /\ pruned_costs tr = [] /\ r.2 = 100
  | None => False
  end /\
  match Rack.IDAstar (100 * 100) 100 (Rack.solver 200) return Prop with
  | Some (r, s', tr) =>
      ~ reached_solved tr /\
      foldr Z.min 1000 (pruned_costs tr) = 101 /\
      r.2 = 100 /\
      r.2 ∉ pruned_costs tr
  | None => False
  end.
Proof.
  split.
  - assert ((fun x => ((reported x).2, pruned_costs (log x)))
              <$> Dial.IDAstar 4 100 1 (Dial.solver 1) = Some (100, []))
      as Hres by (vm_compute; reflexivity).
    name_result Hres r s' tr Hrun.
    injection Hres as Hr Hpr. split; [|split; assumption].
    apply (IDAstar_not_bound _ _ _ _ _ _ _ _ _ Hrun). rewrite Hr. lia.
  - assert ((fun x => ((reported x).2, foldr Z.min 1000 (pruned_costs (log x))))
              <$> Rack.IDAstar (100 * 100) 100 (Rack.solver 200)
            = Some (100, 101))
      as Hres by (vm_compute; reflexivity).
    name_result Hres r s' tr Hrun.
    injection Hres as Hr Hmin.
    destruct (IDAstar_unsolved Rack.move Rack.invert Rack.isSolved
                200 (RackFacts.rack_round_trip 200)
                (100 * 100)%nat 100 (Rack.solver 200) r s' tr eq_refl
                (fun d c Hd => RackFacts.far_unsolved 200 d c ltac:(lia))
                Hrun) as (Hno & _ & Hpr).
    split; [exact Hno|]. split; [exact Hmin|]. split; [exact Hr|].
    intros Hin. specialize (Hpr _ Hin). lia.
Qed.

(** C4 (counterexample). The call with bound 1 on the solved dial: the
    solved node is the root, at depth 0, no move away; the call reports 1.
    And the call with bound 7 from position 2: the solved node is one move
    away, at depth 1; the call reports 7. *)
Lemma solved_call_does_not_report_depth :
  match Dial.IDAstar 100 100 1 (Dial.solver 0) return Prop with
  | Some (r, s', tr) => Solved (mkNode 0 0 0) ∈ tr /\ r = (0, 1)
  | None => False
  end /\
  match Dial.IDAstar 100 100 7 (Dial.solver 2) return Prop with
  | Some (r, s', tr) => Solved (mkNode 0 1 0) ∈ tr /\ r = (0, 7)
  | None => False
  end.
Proof.
  split.
  - assert ((fun x => (reported x, head (log x)))
              <$> Dial.IDAstar 100 100 1 (Dial.solver 0)
            = Some ((0, 1), Some (Solved (mkNode 0 0 0))))
      as Hres by (vm_compute; reflexivity).
    name_result Hres r s' tr Hrun.
    injection Hres as Hr Hhd. split; [|exact Hr].
    destruct tr as [|ev tr]; [discriminate Hhd|]. injection Hhd as ->. left.
  - assert ((fun x => (reported x, head (log x)))
              <$> Dial.IDAstar 100 100 7 (Dial.solver 2)
            = Some ((0, 7), Some (Solved (mkNode 0 1 0))))
      as Hres by (vm_compute; reflexivity).
    name_result Hres r s' tr Hrun.
    injection Hres as Hr Hhd. split; [|exact Hr].
    destruct tr as [|ev tr]; [discriminate Hhd|]. injection Hhd as ->. left.
Qed.

(** C5 (counterexample). No sequence of moves solves an odd position of a
    dial with an even number of positions. From position 1 of the dial with
    4 positions [solve] returns the empty vector, exactly what it returns
    for the solved dial; from position 1 of the dial with 100 positions it
    never returns. Neither is a failure the caller can tell from a
    solution. *)
Lemma unsolvable_dial_gets_no_failure :
  (forall d c, reached_in (Dial.move 4) 1 d c -> Dial.isSolved c = false) /\
  fst <$> (Dial.solve 4 100 (Dial.solver 1)).1 = Some [] /\
  fst <$> (Dial.solve 4 100 (Dial.solver 0)).1 = Some [] /\
  (forall d c, reached_in dial100 1 d c -> Dial.isSolved c = false) /\
  (forall fuel, (Dial.solve 100 fuel (Dial.solver 1)).1 = None).
Proof.
  split; [|split; [vm_compute; reflexivity|split; [vm_compute; reflexivity|split]]].
  - intros d c. apply (DialFacts.odd_unsolvable 2 1); [lia | reflexivity].
  - intros d c. apply (DialFacts.odd_unsolvable 50 1); [lia | reflexivity].
  - assert ((fun x => (reported x).2) <$> Dial.IDAstar 100 1000 1 (Dial.solver 1)
            = Some 2) as H1 by (vm_compute; reflexivity).
    assert ((fun x => (reported x).2)
              <$> Dial.IDAstar 100 1000 2 (resetStructure (Dial.solver 1))
            = Some 3) as H2 by (vm_compute; reflexivity).
    name_result H1 p s1 tr1 Hrun1. name_result H2 r s2 tr2 Hrun2.
    injection H1 as Hp. injection H2 as Hr. rewrite <- Hp in Hrun2.
    apply (solve_diverges _ _ _ _ _ _ _ _ _ _ _ _ Hrun1 Hrun2); lia.
Qed.

(** C6 (the code at a failing input). Position 40 of the dial with 100
    positions is three moves from solved. The first call reports 2, the
    call with bound 2 reports 3, and since the loop keeps comparing with
    the 2 of the first call, it repeats the call with bound 2 for ever:
    [solve] returns with no amount of fuel, and the bounds of its calls
    are 1, then 2 every time. *)
Theorem solve_three_moves_from_solved :
  Dial.isSolved (apply_moves dial100 40 [17; 17; 10]) = true /\
  (fun x => (reported x).2) <$> Dial.IDAstar 100 1000 1 (Dial.solver 40) = Some 2 /\
  (fun x => (reported x).2)
    <$> Dial.IDAstar 100 1000 2 (resetStructure (Dial.solver 40)) = Some 3 /\
  (forall fuel, (Dial.solve 100 fuel (Dial.solver 40)).1 = None) /\
  (forall fuel, exists rest,
     (Dial.solve 100 fuel (Dial.solver 40)).2 = mkCall 1 (Dial.solver 40) :: rest /\
     Forall (fun c => call_bound c = 2) rest).
Proof.
  assert ((fun x => (reported x).2) <$> Dial.IDAstar 100 1000 1 (Dial.solver 40)
          = Some 2) as H1 by (vm_compute; reflexivity).
  assert ((fun x => (reported x).2)
            <$> Dial.IDAstar 100 1000 2 (resetStructure (Dial.solver 40))
          = Some 3) as H2 by (vm_compute; reflexivity).
  split; [vm_compute; reflexivity|]. split; [exact H1|]. split; [exact H2|].
  name_result H1 p s1 tr1 Hrun1. name_result H2 r s2 tr2 Hrun2.
  injection H1 as Hp. injection H2 as Hr. rewrite <- Hp in Hrun2.
  split.
  - apply (solve_diverges _ _ _ _ _ _ _ _ _ _ _ _ Hrun1 Hrun2); lia.
  - intros fuel. rewrite <- Hp.
    exact (later_calls_repeat _ _ _ _ _ _ _ _ fuel Hrun1).
Qed.

(** C8 (counterexample). [solve] on the solved dial, then [solve] again on
    the object it left: the first call of the second run is entered with
    position 0 marked visited and with a move recorded for it. That call
    skips the root and reports 100. *)
Lemma second_solve_starts_marked :
  match (Dial.solve 100 100 (Dial.solver 0)).1 return Prop with
  | Some (ms, s1) =>
      match (Dial.solve 100 100 s1).2 return Prop with
      | c :: _ =>
          call_bound c = 1 /\
          visited (call_entry c) !! 0 = Some true /\
          move_done (call_entry c) !! 0 = Some 0 /\
          (fun x => (reported x, head (log x)))
            <$> Dial.IDAstar 100 100 1 (call_entry c)
          = Some ((0, 100), Some (Skip (mkNode 0 0 0)))
      | [] => False
      end
  | None => False
  end.
Proof. vm_compute. repeat split; reflexivity. Qed.

(** *** The general statements at the dial *)

(** The frontier order at a queue of three entries. *)
Lemma frontier_order_witness :
  compareCube (mkNode 7 3 0, 2) (mkNode 5 2 0, 1) = true /\
  cost (mkNode 5 2 0) <= cost (mkNode 9 2 0).
Proof.
  destruct (frontier_order (T := Z)) as (Hcmp & Hmin & _).
  split.
  - apply Hcmp. left. vm_compute. reflexivity.
  - destruct (Hmin [(mkNode 7 3 0, 2); (mkNode 5 2 0, 1); (mkNode 9 2 0, 4)]
                   (mkNode 5 2 0, 1)
                   [(mkNode 7 3 0, 2); (mkNode 9 2 0, 4)] eq_refl)
      as (_ & _ & Hall).
    destruct (Hall (mkNode 9 2 0, 4)) as [Hle _]; [|exact Hle].
    do 2 right. left.
Defined.

(** The call with bound 2 from position 40: it reports 3, the least pruned
    cost. *)
Lemma next_bound_is_capped_minimum_witness :
  match Dial.IDAstar 100 1000 2 (Dial.solver 40) return Prop with
  | Some (r, s', tr) =>
      r.1 = 40 /\ r.2 = 3 /\ r.2 = foldr Z.min 100 (pruned_costs tr)
  | None => False
  end.
Proof.
  assert ((fun x => (reported x).2) <$> Dial.IDAstar 100 1000 2 (Dial.solver 40)
          = Some 3) as Hres by (vm_compute; reflexivity).
  name_result Hres r s' tr Hrun. injection Hres as Hr.
  destruct (next_bound_is_capped_minimum dial100 (Dial.invert 100) Dial.isSolved
              2 (Dial.solver 40)) as [_ Hcall].
  destruct (Hcall 1000%nat r s' tr Hrun) as (Hroot & Hmin & _).
  - apply (IDAstar_not_bound _ _ _ _ _ _ _ _ _ Hrun). rewrite Hr. lia.
  - split; [exact Hroot|]. split; [exact Hr | exact Hmin].
Defined.

(** The call with bound 7 from position 2: it reports 7 for a solved node
    one move from the root. *)
Lemma solved_call_reports_bound_witness :
  match Dial.IDAstar 100 100 7 (Dial.solver 2) return Prop with
  | Some (r, s', tr) =>
      r = (0, 7) /\ reached_in dial100 2 1 0
  | None => False
  end.
Proof.
  assert ((fun x => head (log x)) <$> Dial.IDAstar 100 100 7 (Dial.solver 2)
          = Some (Some (Solved (mkNode 0 1 0))))
    as Hres by (vm_compute; reflexivity).
  name_result Hres r s' tr Hrun. injection Hres as Hhd.
  destruct tr as [|ev tr]; [discriminate Hhd|]. injection Hhd as ->.
  destruct (solved_call_reports_bound dial100 (Dial.invert 100) Dial.isSolved 2
              (DialFacts.dial_round_trip 100 2 ltac:(lia) ltac:(lia))
              100%nat 7 (Dial.solver 2) r s' _ (mkNode 0 1 0) eq_refl Hrun)
    as (_ & Hr & _ & _ & Hpath).
  - left.
  - split; [exact Hr | exact Hpath].
Defined.

(** [solve] from position 1 of the dial with 4 positions. *)
Lemma unsolvable_returns_empty_witness :
  match Dial.solve 4 100 (Dial.solver 1) return Prop with
  | (Some (ms, s'), calls) =>
      ms = [] /\ rubiksCube s' = 1 /\
      calls = [mkCall 1 (Dial.solver 1); mkCall 100 (resetStructure (Dial.solver 1))]
  | (None, _) => False
  end.
Proof.
  assert (fst <$> (Dial.solve 4 100 (Dial.solver 1)).1 = Some [])
    as Hres by (vm_compute; reflexivity).
  destruct (Dial.solve 4 100 (Dial.solver 1)) as [[[ms s']|] calls] eqn:Hsolve;
    [|discriminate Hres].
  apply (unsolvable_returns_empty (Dial.move 4) (Dial.invert 4) Dial.isSolved 1
           (DialFacts.dial_round_trip 4 1 ltac:(lia) ltac:(lia))
           100%nat (Dial.solver 1) ms s' calls eq_refl
           (fun d c => DialFacts.odd_unsolvable 2 1 d c ltac:(lia) eq_refl)
           Hsolve).
Defined.

(** [solve] and the call with bound 2 on a newly constructed object at
    position 20. *)
Lemma visited_once_and_reset_witness :
  Forall (fun c => visited (call_entry c) = ∅ /\ move_done (call_entry c) = ∅)
         (Dial.solve 100 1000 (Dial.solver 20)).2 /\
  match Dial.IDAstar 100 1000 2 (Dial.solver 20) return Prop with
  | Some (r, s', tr) => NoDup (visited_cubes tr)
  | None => False
  end.
Proof.
  destruct (visited_once_and_reset dial100 (Dial.invert 100) Dial.isSolved)
    as (Honce & _ & Hfresh).
  split; [apply Hfresh; reflexivity|].
  assert ((fun x => (reported x).2) <$> Dial.IDAstar 100 1000 2 (Dial.solver 20)
          = Some 2) as Hres by (vm_compute; reflexivity).
  name_result Hres r s' tr Hrun.
  exact (proj1 (Honce _ _ _ _ _ _ Hrun)).
Defined.

End OnTheDial.
(** ** The search and the driver at the two puzzles *)

Module AtThePuzzles.
Import IDAstarSolver SearchSpec SearchOrder FrontierFacts SearchFacts DriverFacts.
Import OrderFacts SearchTheorems.

Local Abbreviation dial100 := (Dial.move 100).
Local Abbreviation undial100 := (Dial.invert 100).
Local Abbreviation reported := (fun x : (Z * Z) * Solver (T := Z) * list (event (T := Z)) => x.1.1).
Local Abbreviation log := (fun x : (Z * Z) * Solver (T := Z) * list (event (T := Z)) => x.2).

Local Ltac name_call Hres r s' tr Hrun :=
  match type of Hres with
  | _ <$> ?call = _ =>
      destruct call as [[[r s'] tr]|] eqn:Hrun; [|discriminate Hres]
  end.

Local Ltac moves_ok :=
  repeat first
    [ apply Forall_nil_2
    | apply Forall_cons_2; [unfold move_indices; apply elem_of_seqZ; lia|] ].

(** The dial turned to 20 is two moves from solved and no nearer. *)
Lemma dial_20_in_two : reached_in dial100 20 2 0.
Proof. exists [17; 9]. split; [reflexivity|]. split; [moves_ok | vm_compute; reflexivity]. Qed.

Lemma dial_not_in_one (n c0 : Z) :
  Dial.isSolved c0 = false ->
  forallb (fun m => negb (Dial.isSolved (Dial.move n c0 m))) move_indices = true ->
  forall d c, 0 <= d <= 1 -> reached_in (Dial.move n) c0 d c ->
              Dial.isSolved c = false.
Proof.
  intros H0 Hall d c Hd Hc. rewrite forallb_forall in Hall.
  destruct (reached_within_one (Dial.move n) c0 d c Hd Hc) as [->|(m & Hm & ->)];
    [done|].
  apply negb_true_iff, Hall. by apply list_elem_of_In.
Qed.

(** The comparator at three entries, two of which it places neither
    way. *)
Lemma compareCube_strict_weak_order_witness :
  compareCube (mkNode 7 3 0, 2) (mkNode 9 1 0, 4) = true /\
  compareCube (mkNode 5 2 0, 1) (mkNode 8 2 0, 6) = false /\
  compareCube (mkNode 8 2 0, 6) (mkNode 5 2 0, 1) = false.
Proof.
  destruct (compareCube_strict_weak_order (T := Z)) as (_ & Htrans & _ & Heq).
  split.
  - apply (Htrans _ (mkNode 5 2 0, 1)); vm_compute; reflexivity.
  - apply Heq. split; reflexivity.
Defined.

(** The call with bound 1 from position 20: it reports the root and
    leaves the cube and the moves of the object alone. *)
Lemma IDAstar_frame_witness :
  match Dial.IDAstar 100 100 1 (Dial.solver 20) return Prop with
  | Some (r, s', tr) =>
      r.1 = 20 /\ rubiksCube s' = 20 /\ moves s' = [] /\ cornerDB s' 20 = 1
  | None => False
  end.
Proof.
  assert ((fun x => (reported x).2) <$> Dial.IDAstar 100 100 1 (Dial.solver 20)
          = Some 2) as Hres by (vm_compute; reflexivity).
  name_call Hres r s' tr Hrun. injection Hres as Hr.
  destruct (IDAstar_frame dial100 undial100 Dial.isSolved _ _ _ _ _ _ Hrun)
    as (Hroot & Hmoves & Hdb & _ & Hcase).
  split; [|split; [exact Hroot|split; [exact Hmoves|]]].
  - destruct Hcase as [Hc|[_ Hc]]; [exact Hc | lia].
  - rewrite Hdb. reflexivity.
Defined.

(** The call with bound 2 from position 40: every candidate it prunes
    costs 3, and it reports 3. *)
Lemma pruned_costs_one_past_bound_witness :
  match Dial.IDAstar 100 1000 2 (Dial.solver 40) return Prop with
  | Some (r, s', tr) =>
      (forall x : Z, x ∈ pruned_costs tr -> x = 3) /\ r.2 = 3
  | None => False
  end.
Proof.
  assert ((fun x => (reported x).2) <$> Dial.IDAstar 100 1000 2 (Dial.solver 40)
          = Some 3) as Hres by (vm_compute; reflexivity).
  name_call Hres r s' tr Hrun. injection Hres as Hr.
  destruct (pruned_costs_one_past_bound dial100 undial100 Dial.isSolved
              _ _ _ _ _ _ Hrun) as [Hexact _].
  split; [exact Hexact | exact Hr].
Defined.

(** The calls of [solve] from position 40. *)
Lemma later_bounds_are_2_or_100_witness :
  exists rest,
    (Dial.solve 100 50 (Dial.solver 40)).2 = mkCall 1 (Dial.solver 40) :: rest /\
    Forall (fun k => call_bound k = 2 \/ call_bound k = 100) rest.
Proof.
  destruct (later_bounds_are_2_or_100 dial100 undial100 Dial.isSolved
              50%nat (Dial.solver 40)) as (rest & Hcalls & Hall & _).
  exists rest. split; [exact Hcalls | exact Hall].
Defined.


(** After that call, the recorded moves read back from the solved
    position. *)
Lemma recorded_moves_lead_back_witness :
  match Dial.IDAstar 100 1000 5 (Dial.solver 20) return Prop with
  | Some (r, s', tr) =>
      exists ms : list MOVE,
        apply_moves dial100 20 ms = r.1 /\
        path_loop undial100 6 r.1 s' = Some (set_moves s' ([] ++ reverse ms))
  | None => False
  end.
Proof.
  assert ((fun x => head (log x)) <$> Dial.IDAstar 100 1000 5 (Dial.solver 20)
          = Some (Some (Solved (mkNode 0 2 0)))) as Hres
    by (vm_compute; reflexivity).
  name_call Hres r s' tr Hrun. injection Hres as Hhd.
  destruct tr as [|ev tr]; [discriminate Hhd|]. injection Hhd as ->.
  destruct (recorded_moves_lead_back dial100 undial100 Dial.isSolved 20
              (DialFacts.dial_round_trip 100 20 ltac:(lia) ltac:(lia))
              _ _ _ _ _ _ (clean_construct _ _) eq_refl Hrun)
    as (ms & _ & Hlen & Hto & _ & Hread).
  - exists (mkNode 0 2 0). left.
  - exists ms. split; [exact Hto|]. apply Hread. lia.
Defined.

(** [solve] from position 2, one move from solved. *)
Lemma solve_within_one_move_witness :
  exists (ms : list MOVE) s',
    (forall fuel, (21 <= fuel)%nat ->
       Dial.solve 100 fuel (Dial.solver 2) =
       (Some (ms ++ reverse [], s'), [mkCall 1 (Dial.solver 2)])) /\
    Forall (fun m => m ∈ move_indices) ms /\
    Z.of_nat (length ms) <= 1 /\
    Dial.isSolved (apply_moves dial100 2 ms) = true /\
    rubiksCube s' = apply_moves dial100 2 ms.
Proof.
  apply (solve_within_one_move dial100 undial100 Dial.isSolved 2
           (DialFacts.dial_round_trip 100 2 ltac:(lia) ltac:(lia))
           (Dial.solver 2) 1 0).
  - apply clean_construct.
  - reflexivity.
  - lia.
  - exists [9]. split; [reflexivity|]. split; [moves_ok | vm_compute; reflexivity].
  - reflexivity.
Defined.

(** [solve] from position 20, two moves from solved. *)
Lemma solve_two_moves_away_witness :
  exists s',
    (forall fuel, (345 <= fuel)%nat ->
       Dial.solve 100 fuel (Dial.solver 20) =
       (Some ([], s'),
        [mkCall 1 (Dial.solver 20); mkCall 2 (resetStructure (Dial.solver 20))])) /\
    rubiksCube s' = 20 /\
    Dial.isSolved (rubiksCube s') = false.
Proof.
  apply (solve_two_moves_away dial100 undial100 Dial.isSolved 20
           (DialFacts.dial_round_trip 100 20 ltac:(lia) ltac:(lia))
           (Dial.solver 20) 0).
  - apply clean_construct.
  - reflexivity.
  - apply dial_not_in_one; vm_compute; reflexivity.
  - exact dial_20_in_two.
  - reflexivity.
Defined.

(** [solve] from notch 3 of the rack, three moves from solved. *)
Lemma solvable_beyond_two_never_returns_witness :
  Rack.isSolved (apply_moves Rack.move 3 [9; 9; 9]) = true /\
  forall fuel,
    (IDAstarSolver.solve Rack.move Rack.invert Rack.isSolved fuel (Rack.solver 3)).1
    = None.
Proof.
  split; [vm_compute; reflexivity|].
  apply (solvable_beyond_two_never_returns Rack.move Rack.invert Rack.isSolved 3
           (RackFacts.rack_round_trip 3) (Rack.solver 3) 3 0).
  - apply clean_construct.
  - reflexivity.
  - intros d c Hd. apply RackFacts.far_unsolved. lia.
  - exists [9; 9; 9]. split; [reflexivity|]. split; [moves_ok | vm_compute; reflexivity].
  - reflexivity.
Defined.

End AtThePuzzles.
